(** * Set game server: the game room and the session directory

    A shallow embedding of [src/main.py] (classes [Card], [GameRoom] and
    [ServerState], and the request handlers that reach them) together with the
    properties its specification states about them.

    Python integers are unbounded, hence [Z]; [len] is a [nat].  A Python
    [list] is a Rocq [list] in the same order (index 0 first, [append] and
    [pop] work at the far end).  A [dict] is a [gmap].  Methods mutate
    [self]; they are embedded in a state monad whose results are either a
    returned value or a raised exception, and in both cases the state that
    the method leaves behind is kept: an exception does not roll back the
    mutations made before it. *)

From stdpp Require Import gmap strings list fin_maps.
From Stdlib Require Import ZArith Lia.

Local Open Scope Z_scope.

(** ** Python results: a value or an exception, over a mutable object *)

Inductive exn : Type :=
  | KeyError (key : string)      (* [d[k]] on a missing key *)
  | ValueError.                  (* [list.remove(x)]: x not in list *)

Inductive outcome (A : Type) : Type :=
  | Ret (a : A)
  | Raise (e : exn).
Arguments Ret {A} a.
Arguments Raise {A} e.

Definition Py (S A : Type) : Type := S → outcome A * S.

Definition py_ret {S A} (a : A) : Py S A := λ s, (Ret a, s).

Definition py_bind {S A B} (m : Py S A) (k : A → Py S B) : Py S B :=
  λ s, match m s with
       | (Ret a, s') => k a s'
       | (Raise e, s') => (Raise e, s')
       end.

Definition py_get {S} : Py S S := λ s, (Ret s, s).
Definition py_modify {S} (f : S → S) : Py S unit := λ s, (Ret tt, f s).

Declare Scope py_scope.
Delimit Scope py_scope with py.
Notation "x <~ m ;; k" := (py_bind m (λ x, k))
  (at level 100, m at next level, k at level 200, right associativity) : py_scope.
Notation "m ;;; k" := (py_bind m (λ _, k))
  (at level 100, k at level 200, right associativity) : py_scope.

(** [for x in xs: body(x)] *)
Fixpoint py_for {S A} (xs : list A) (body : A → Py S unit) : Py S unit :=
  match xs with
  | [] => py_ret tt
  | x :: xs' => (body x ;;; py_for xs' body)%py
  end.

(** ** Python lists *)

(** [l.pop()]: remove and return the last item ([None] on an empty list,
    where Python raises; every call in the source is guarded). *)
Definition list_pop {A} (l : list A) : option (A * list A) :=
  match rev l with
  | [] => None
  | x :: r => Some (x, rev r)
  end.

(** [x[i], x[j] = x[j], x[i]] *)
Definition list_swap {A} (i j : nat) (l : list A) : list A :=
  match l !! i, l !! j with
  | Some a, Some b => <[j:=a]> (<[i:=b]> l)
  | _, _ => l
  end.

(** [random.shuffle(x)], as CPython writes it:
    [for i in reversed(range(1, len(x))): j = randbelow(i + 1); swap x[i], x[j]].
    The generator is the list [draws]: each call of [randbelow (i + 1)] takes
    the next draw modulo [i + 1] (0 once the list is used up). *)
Fixpoint shuffle_from {A} (i : nat) (draws : list nat) (x : list A) : list A :=
  match i with
  | O => x
  | S i' =>
      let j := (hd 0%nat draws `mod` (i + 1))%nat in
      shuffle_from i' (tl draws) (list_swap i j x)
  end.

Definition shuffle {A} (draws : list nat) (x : list A) : list A :=
  shuffle_from (length x - 1) draws x.

(** ** Data models *)

Record Card : Type := mkCard {
  id : Z;
  count : Z;
  shape : Z;
  fill : Z;
  color : Z
}.

(** Equality of two [Card] models: field by field. *)
Definition Card_eqb (a b : Card) : bool :=
  (id a =? id b) && (count a =? count b) && (shape a =? shape b)
  && (fill a =? fill b) && (color a =? color b).

(** [l.remove(x)]: drop the first item equal to [x]; [None] where Python
    raises [ValueError]. *)
Fixpoint list_remove (x : Card) (l : list Card) : option (list Card) :=
  match l with
  | [] => None
  | y :: l' => if Card_eqb y x then Some l' else (y ::.) <$> list_remove x l'
  end.

(** ** Game logic *)

Record GameRoom : Type := mkGameRoom {
  game_id : Z;
  deck : list Card;
  field : list Card;
  players : gmap string Z;     (* accessToken -> score *)
  status : string
}.

Definition set_deck (d : list Card) (g : GameRoom) : GameRoom :=
  mkGameRoom (game_id g) d (field g) (players g) (status g).
Definition set_field (f : list Card) (g : GameRoom) : GameRoom :=
  mkGameRoom (game_id g) (deck g) f (players g) (status g).
Definition set_players (p : gmap string Z) (g : GameRoom) : GameRoom :=
  mkGameRoom (game_id g) (deck g) (field g) p (status g).
Definition set_status (s : string) (g : GameRoom) : GameRoom :=
  mkGameRoom (game_id g) (deck g) (field g) (players g) s.

(** The four nested loops of [_initialize_deck], before the shuffle: the
    loop state is the deck built so far and the running [card_id]. *)
Definition full_deck : list Card :=
  fst
    (foldl (λ st c,
      foldl (λ st s,
        foldl (λ st f,
          foldl (λ '(d, card_id) n,
                   (d ++ [mkCard card_id n s f c], card_id + 1))
                st [1; 2; 3])
              st [1; 2; 3])
            st [1; 2; 3])
          ([], 0) [1; 2; 3]).

Definition _initialize_deck (draws : list nat) (g : GameRoom) : GameRoom :=
  set_deck (shuffle draws (deck g ++ full_deck)) g.

(** [if self.deck: self.field.append(self.deck.pop())] *)
Definition deal_one (g : GameRoom) : GameRoom :=
  match list_pop (deck g) with
  | Some (c, d) => set_field (field g ++ [c]) (set_deck d g)
  | None => g
  end.

(** [for _ in range(12): ...] *)
Definition _deal_initial_cards (g : GameRoom) : GameRoom :=
  Nat.iter 12 deal_one g.

(** [GameRoom(game_id)]; [draws] feeds the shuffle. *)
Definition new_GameRoom (gid : Z) (draws : list nat) : GameRoom :=
  _deal_initial_cards
    (_initialize_deck draws (mkGameRoom gid [] [] ∅ "ongoing")).

Definition add_player (access_token : string) (g : GameRoom) : GameRoom :=
  match players g !! access_token with
  | None => set_players (<[access_token := 0]> (players g)) g
  | Some _ => g
  end.

Definition get_card_by_id (g : GameRoom) (card_id : Z) : option Card :=
  find (λ card, id card =? card_id) (field g).

Definition check_property (v1 v2 v3 : Z) : bool :=
  ((v1 =? v2) && (v2 =? v3))
  || (negb (v1 =? v2) && negb (v1 =? v3) && negb (v2 =? v3)).

Definition is_valid_set (c1 c2 c3 : Card) : bool :=
  check_property (color c1) (color c2) (color c3)
  && check_property (shape c1) (shape c2) (shape c3)
  && check_property (fill c1) (fill c2) (fill c3)
  && check_property (count c1) (count c2) (count c3).

(** [self.players[access_token]] *)
Definition players_get (access_token : string) : Py GameRoom Z :=
  λ g, match players g !! access_token with
       | Some score => (Ret score, g)
       | None => (Raise (KeyError access_token), g)
       end.

(** [self.players[access_token] += delta] *)
Definition players_add (access_token : string) (delta : Z) : Py GameRoom unit :=
  (score <~ players_get access_token ;;
   py_modify (λ g, set_players (<[access_token := score + delta]> (players g)) g))%py.

(** [self.field.remove(card)] *)
Definition field_remove (card : Card) : Py GameRoom unit :=
  λ g, match list_remove card (field g) with
       | Some f => (Ret tt, set_field f g)
       | None => (Raise ValueError, g)
       end.

(** [while len(self.field) < 12 and self.deck: self.field.append(self.deck.pop())].
    Every turn pops one card, so [length (deck g)] turns always suffice
    ([refill_done] below). *)
Fixpoint refill_loop (fuel : nat) (g : GameRoom) : GameRoom :=
  match fuel with
  | O => g
  | S fuel' =>
      if (length (field g) <? 12)%nat then
        match list_pop (deck g) with
        | Some (c, d) => refill_loop fuel' (set_field (field g ++ [c]) (set_deck d g))
        | None => g
        end
      else g
  end.

Definition refill (g : GameRoom) : GameRoom := refill_loop (length (deck g)) g.

(** [if not self.deck and len(self.field) < 3: self.status = "ended"] *)
Definition check_ended (g : GameRoom) : GameRoom :=
  match deck g with
  | [] => if (length (field g) <? 3)%nat then set_status "ended" g else g
  | _ :: _ => g
  end.

Definition pick_set (access_token : string) (card_ids : list Z)
  : Py GameRoom (bool * Z) :=
  (if negb (length card_ids =? 3)%nat then
     score <~ players_get access_token ;; py_ret (false, score)
   else
     g <~ py_get ;;
     match get_card_by_id g <$> card_ids with
     | [Some c1; Some c2; Some c3] =>
         let is_set := is_valid_set c1 c2 c3 in
         (if is_set then
            py_for [c1; c2; c3] field_remove ;;;
            players_add access_token 1 ;;;
            py_modify refill ;;;
            py_modify check_ended
          else
            players_add access_token (-1)) ;;;
         score <~ players_get access_token ;;
         py_ret (is_set, score)
     | _ =>
         (* three looked-up entries that are not all cards: [None in cards] *)
         score <~ players_get access_token ;; py_ret (false, score)
     end)%py.

Definition add_cards (g : GameRoom) : GameRoom :=
  Nat.iter 3 deal_one g.

(** ** Server state *)

Record User : Type := mkUser {
  nickname : string;
  password : string;
  current_game_id : option Z
}.

Record ServerState : Type := mkServerState {
  users : gmap string User;      (* accessToken -> user *)
  games : gmap Z GameRoom;       (* gameId -> GameRoom *)
  next_game_id : Z
}.

Definition new_ServerState : ServerState := mkServerState ∅ ∅ 0.

Definition chars : string :=
  "ABCDEFGHIJKLMNOPQRSTUVWXYZabcdefghijklmnopqrstuvwxyz0123456789".

(** [''.join(random.choice(chars) for _ in range(16))]; [random.choice]
    takes the next draw modulo [len(chars)]. *)
Fixpoint token_chars (n : nat) (draws : list nat) : string :=
  match n with
  | O => EmptyString
  | S n' =>
      let i := (hd 0%nat draws `mod` String.length chars)%nat in
      match String.get i chars with
      | Some ch => String ch (token_chars n' (tl draws))
      | None => token_chars n' (tl draws)
      end
  end.

Definition _generate_token (draws : list nat) : string := token_chars 16 draws.

Definition register_user (nick pass : string) (draws : list nat)
  : Py ServerState string :=
  (let access_token := _generate_token draws in
   py_modify (λ st, mkServerState
                      (<[access_token := mkUser nick pass None]> (users st))
                      (games st) (next_game_id st)) ;;;
   py_ret access_token)%py.

Definition verify_token (access_token : string) (st : ServerState) : bool :=
  bool_decide (is_Some (users st !! access_token)).

Definition create_game (draws : list nat) : Py ServerState Z :=
  (st <~ py_get ;;
   let gid := next_game_id st in
   py_modify (λ st, mkServerState (users st)
                      (<[gid := new_GameRoom gid draws]> (games st))
                      (next_game_id st + 1)) ;;;
   py_ret gid)%py.

Definition enter_game (access_token : string) (gid : Z) : Py ServerState bool :=
  λ st,
  match games st !! gid with
  | None => (Ret false, st)
  | Some room =>
      match users st !! access_token with
      | None => (Raise (KeyError access_token), st)
      | Some u =>
          (Ret true,
           mkServerState
             (<[access_token := mkUser (nickname u) (password u) (Some gid)]> (users st))
             (<[gid := add_player access_token room]> (games st))
             (next_game_id st))
      end
  end.

(** The room the user is in.  Python hands out the room object itself,
    which stays shared with [games]; here it comes with its key, under
    which [with_room] stores what a method call leaves of it. *)
Definition get_user_game (access_token : string)
  : Py ServerState (option (Z * GameRoom)) :=
  λ st,
  match users st !! access_token with
  | None => (Raise (KeyError access_token), st)
  | Some u =>
      match current_game_id u with
      | None => (Ret None, st)
      | Some gid => (Ret ((λ room, (gid, room)) <$> games st !! gid), st)
      end
  end.

(** ** API endpoints *)

(** [str(e)] *)
Definition exn_message (e : exn) : string :=
  match e with
  | KeyError k => "'" +:+ k +:+ "'"
  | ValueError => "list.remove(x): x not in list"
  end.

Inductive response (A : Type) : Type :=
  | Success (payload : A)                (* success: True, exception: None *)
  | Failure (message : string).          (* success: False, exception.message *)
Arguments Success {A} payload.
Arguments Failure {A} message.

(** [try: ... except Exception as e: return failure(str(e))] *)
Definition handle {A} (body : Py ServerState (response A))
  : ServerState → response A * ServerState :=
  λ st, match body st with
        | (Ret r, st') => (r, st')
        | (Raise e, st') => (Failure (exn_message e), st')
        end.

(** Call a [GameRoom] method on the shared room object [game]. *)
Definition with_room {A} (game : Z * GameRoom) (m : Py GameRoom A)
  : Py ServerState A :=
  λ st,
  let '(r, room') := m game.2 in
  (r, mkServerState (users st) (<[game.1 := room']> (games st)) (next_game_id st)).

(** [for token, score in items: users.append((state.users[token]["nickname"], score))];
    [out] is the list [users] built so far. *)
Fixpoint scores_loop (items out : list (string * Z))
  : Py ServerState (list (string * Z)) :=
  match items with
  | [] => py_ret out
  | (token, score) :: rest =>
      λ st, match users st !! token with
            | None => (Raise (KeyError token), st)
            | Some u => scores_loop rest (out ++ [(nickname u, score)]) st
            end
  end.

(** [users.sort(key=lambda x: x["score"], reverse=True)]: Python's sort is
    stable, also when reversed; entries of equal score keep their order. *)
Fixpoint insert_by_score (x : string * Z) (l : list (string * Z))
  : list (string * Z) :=
  match l with
  | [] => [x]
  | y :: l' => if x.2 <? y.2 then y :: insert_by_score x l' else x :: l
  end.

Definition sort_by_score (l : list (string * Z)) : list (string * Z) :=
  foldr insert_by_score [] l.

Module api.

Definition enter_room (accessToken : string) (gameId : Z)
  : ServerState → response Z * ServerState :=
  handle
    (st <~ py_get ;;
     if negb (verify_token accessToken st) then
       py_ret (Failure "Invalid access token")
     else
       success <~ enter_game accessToken gameId ;;
       if negb success then py_ret (Failure "Game not found")
       else py_ret (Success gameId))%py.

Definition pick_set (accessToken : string) (cards : list Z)
  : ServerState → response (bool * Z) * ServerState :=
  handle
    (st <~ py_get ;;
     if negb (verify_token accessToken st) then
       py_ret (Failure "Invalid access token")
     else
       game <~ get_user_game accessToken ;;
       match game with
       | None => py_ret (Failure "User is not in a game")
       | Some game =>
           r <~ with_room game (pick_set accessToken cards) ;;
           py_ret (Success r)
       end)%py.

Definition add_cards (accessToken : string)
  : ServerState → response unit * ServerState :=
  handle
    (st <~ py_get ;;
     if negb (verify_token accessToken st) then
       py_ret (Failure "Invalid access token")
     else
       game <~ get_user_game accessToken ;;
       match game with
       | None => py_ret (Failure "User is not in a game")
       | Some game =>
           with_room game (py_modify add_cards) ;;;
           py_ret (Success tt)
       end)%py.

Definition register (nickname password : string) (draws : list nat)
  : ServerState → response (string * string) * ServerState :=
  handle
    (access_token <~ register_user nickname password draws ;;
     py_ret (Success (nickname, access_token)))%py.

Definition create_room (accessToken : string) (draws : list nat)
  : ServerState → response Z * ServerState :=
  handle
    (st <~ py_get ;;
     if negb (verify_token accessToken st) then
       py_ret (Failure "Invalid access token")
     else
       game_id <~ create_game draws ;;
       py_ret (Success game_id))%py.

(** The answer holds the cards of the field, the status and the caller's
    score, [game.players.get(req.accessToken, 0)]. *)
Definition get_field (accessToken : string)
  : ServerState → response (list Card * string * Z) * ServerState :=
  handle
    (st <~ py_get ;;
     if negb (verify_token accessToken st) then
       py_ret (Failure "Invalid access token")
     else
       game <~ get_user_game accessToken ;;
       match game with
       | None => py_ret (Failure "User is not in a game")
       | Some game =>
           let score := default 0 (players game.2 !! accessToken) in
           py_ret (Success (field game.2, status game.2, score))
       end)%py.

(** [items] stands for [game.players.items()]: the entries of the score
    map in the order the dict keeps them (the order in which the players
    joined), which a [gmap] does not record. *)
Definition get_scores (accessToken : string) (items : list (string * Z))
  : ServerState → response (list (string * Z)) * ServerState :=
  handle
    (st <~ py_get ;;
     if negb (verify_token accessToken st) then
       py_ret (Failure "Invalid access token")
     else
       game <~ get_user_game accessToken ;;
       match game with
       | None => py_ret (Failure "User is not in a game")
       | Some game =>
           out <~ scores_loop items [] ;;
           py_ret (Success (sort_by_score out))
       end)%py.

End api.

(** ** Operations on a room, and the states a room can reach *)

Inductive op : Type :=
  | Pick (access_token : string) (card_ids : list Z)
  | AddCards
  | AddPlayer (access_token : string).

(** The room as the operation leaves it, whether it returned or raised. *)
Definition run_op (o : op) (g : GameRoom) : GameRoom :=
  match o with
  | Pick tok ids => (pick_set tok ids g).2
  | AddCards => add_cards g
  | AddPlayer tok => add_player tok g
  end.

Definition run_ops (os : list op) (g : GameRoom) : GameRoom :=
  foldl (λ g o, run_op o g) g os.

Inductive reachable : GameRoom → Prop :=
  | reach_new gid draws : reachable (new_GameRoom gid draws)
  | reach_op o g : reachable g → reachable (run_op o g).

(** How many [add_cards] calls a history holds. *)
Definition is_add_cards (o : op) : bool :=
  match o with AddCards => true | _ => false end.

Definition count_add_cards (os : list op) : nat :=
  length (filter (λ o, is_add_cards o = true) os).

(** ** Requests to the server, and the states the server can reach *)

Inductive request : Type :=
  | Register (nickname password : string) (draws : list nat)
  | CreateRoom (accessToken : string) (draws : list nat)
  | EnterRoom (accessToken : string) (gameId : Z)
  | GetField (accessToken : string)
  | PickSet (accessToken : string) (cards : list Z)
  | AddCardsTo (accessToken : string)
  | GetScores (accessToken : string) (items : list (string * Z)).

(** The server state a request leaves behind. *)
Definition serve (r : request) (st : ServerState) : ServerState :=
  match r with
  | Register nick pass draws => (api.register nick pass draws st).2
  | CreateRoom tok draws => (api.create_room tok draws st).2
  | EnterRoom tok gid => (api.enter_room tok gid st).2
  | GetField tok => (api.get_field tok st).2
  | PickSet tok ids => (api.pick_set tok ids st).2
  | AddCardsTo tok => (api.add_cards tok st).2
  | GetScores tok items => (api.get_scores tok items st).2
  end.

Inductive reachable_server : ServerState → Prop :=
  | server_new : reachable_server new_ServerState
  | server_step r st : reachable_server st → reachable_server (serve r st).

(** The room a user is in, if any. *)
Definition current_room (tok : string) (st : ServerState) : option GameRoom :=
  u ← users st !! tok; gid ← current_game_id u; games st !! gid.

(** ** Sample rooms *)

(** A new room, its deck shuffled with no draws left (every draw is 0),
    which one player has entered. *)
Definition alice : string := "alice".
Definition sample_room : GameRoom :=
  run_op (AddPlayer alice) (new_GameRoom 0 []).

(** Alice picks the 26 sets {78, 79, 80}, {75, 76, 77}, ..., {3, 4, 5} in
    turn: with this deck each is in the field when its turn comes. *)
Definition triple_picks : list op :=
  (λ k : nat, let z := Z.of_nat (3 * (26 - k)) in Pick alice [z; z + 1; z + 2])
    <$> seq 0 26.

(** A server on which Alice registered, created room 0 and entered it. *)
Definition sample_token : string := _generate_token [].
Definition sample_server : ServerState :=
  (api.enter_room sample_token 0
     (create_game []
        (register_user "Alice" "password123" [] new_ServerState).2).2).2.

(** ** Vocabulary of the properties *)

(** The states a room reaches when no call of [pick_set] raised. *)
Inductive reachable_no_raise : GameRoom → Prop :=
  | clean_new gid draws : reachable_no_raise (new_GameRoom gid draws)
  | clean_pick tok ids g r g' :
      reachable_no_raise g →
      pick_set tok ids g = (Ret r, g') →
      reachable_no_raise g'
  | clean_add_cards g :
      reachable_no_raise g → reachable_no_raise (add_cards g)
  | clean_add_player tok g :
      reachable_no_raise g → reachable_no_raise (add_player tok g).

(** Deck and field together. *)
Definition cards (g : GameRoom) : list Card := deck g ++ field g.

(** [deals dealt g g']: from [g] to [g'] the cards [dealt] were popped off
    the deck, one at a time and in this order, and appended to the field;
    nothing else changed. *)
Definition deals (dealt : list Card) (g g' : GameRoom) : Prop :=
  deck g = deck g' ++ rev dealt
  ∧ g' = set_field (field g ++ dealt) (set_deck (deck g') g).

(** The three removals of a matching pick, all successful. *)
Definition removes3 (c1 c2 c3 : Card) (f f3 : list Card) : Prop :=
  ∃ f1 f2, list_remove c1 f = Some f1 ∧ list_remove c2 f1 = Some f2
           ∧ list_remove c3 f2 = Some f3.

(** A pick the room turns down before looking at the cards: not three
    ids, or an id that no card of the field carries. *)
Definition rejected (ids : list Z) (g : GameRoom) : Prop :=
  length ids ≠ 3%nat ∨ ∃ i, i ∈ ids ∧ i ∉ id <$> field g.

Inductive pick_spec (tok : string) (ids : list Z) (g : GameRoom)
  : outcome (bool * Z) → GameRoom → Prop :=
  (* wrong number of ids, or an id that is not in the field *)
  | pick_rejected s :
      rejected ids g →
      players g !! tok = Some s →
      pick_spec tok ids g (Ret (false, s)) g
  | pick_rejected_unjoined :
      rejected ids g →
      players g !! tok = None →
      pick_spec tok ids g (Raise (KeyError tok)) g
  (* three cards of the field that are no set *)
  | pick_miss c1 c2 c3 s :
      get_card_by_id g <$> ids = [Some c1; Some c2; Some c3] →
      is_valid_set c1 c2 c3 = false →
      players g !! tok = Some s →
      pick_spec tok ids g (Ret (false, s - 1))
        (set_players (<[tok := s - 1]> (players g)) g)
  | pick_miss_unjoined c1 c2 c3 :
      get_card_by_id g <$> ids = [Some c1; Some c2; Some c3] →
      is_valid_set c1 c2 c3 = false →
      players g !! tok = None →
      pick_spec tok ids g (Raise (KeyError tok)) g
  (* three cards of the field that are a set *)
  | pick_hit c1 c2 c3 f3 s :
      get_card_by_id g <$> ids = [Some c1; Some c2; Some c3] →
      is_valid_set c1 c2 c3 = true →
      removes3 c1 c2 c3 (field g) f3 →
      players g !! tok = Some s →
      pick_spec tok ids g (Ret (true, s + 1))
        (check_ended (refill
           (set_players (<[tok := s + 1]> (players g)) (set_field f3 g))))
  | pick_hit_unjoined c1 c2 c3 f3 :
      get_card_by_id g <$> ids = [Some c1; Some c2; Some c3] →
      is_valid_set c1 c2 c3 = true →
      removes3 c1 c2 c3 (field g) f3 →
      players g !! tok = None →
      pick_spec tok ids g (Raise (KeyError tok)) (set_field f3 g)
  (* a set whose cards cannot all be removed: [list.remove] raises after
     the removals that did succeed *)
  | pick_hit_remove_fails c1 c2 c3 f' :
      get_card_by_id g <$> ids = [Some c1; Some c2; Some c3] →
      is_valid_set c1 c2 c3 = true →
      list_remove c1 (field g) = Some f'
      ∧ list_remove c2 f' = None
      ∨ (∃ f1, list_remove c1 (field g) = Some f1
               ∧ list_remove c2 f1 = Some f' ∧ list_remove c3 f' = None) →
      pick_spec tok ids g (Raise ValueError) (set_field f' g).

(** The id [_initialize_deck] gives to the card of these attributes: the
    position of the card in the four nested loops. *)
Definition id_of_attributes (c : Card) : Z :=
  27 * (color c - 1) + 9 * (shape c - 1) + 3 * (fill c - 1) + (count c - 1).

(** What holds of every server state that requests can produce: room ids
    are below [next_game_id] and each room is one a [GameRoom] can reach and
    carries its own id; the room a user points to exists and lists the user
    among its players; the players of every room are registered users. *)
Definition server_ok (st : ServerState) : Prop :=
  (∀ gid room, games st !! gid = Some room →
     0 ≤ gid < next_game_id st ∧ reachable room ∧ game_id room = gid)
  ∧ (∀ tok u gid, users st !! tok = Some u → current_game_id u = Some gid →
       ∃ room, games st !! gid = Some room ∧ is_Some (players room !! tok))
  ∧ (∀ gid room tok, games st !! gid = Some room →
       is_Some (players room !! tok) → is_Some (users st !! tok)).




(** An attribute of three cards as the specification reads it: all equal
    or pairwise distinct. *)
Definition coherent (v1 v2 v3 : Z) : Prop :=
  (v1 = v2 ∧ v2 = v3) ∨ (v1 ≠ v2 ∧ v1 ≠ v3 ∧ v2 ≠ v3).

(** Exactly two of the three values are equal. *)
Definition two_equal (v1 v2 v3 : Z) : Prop :=
  (v1 = v2 ∧ v3 ≠ v1) ∨ (v1 = v3 ∧ v2 ≠ v1) ∨ (v2 = v3 ∧ v1 ≠ v2).

(** The four attributes of a card. *)
Definition attributes : list (Card → Z) := [count; shape; fill; color].

(** How many distinct card ids deck and field hold together. *)
Definition unique_ids (g : GameRoom) : nat :=
  length (remove_dups (id <$> cards g)).

(** How many cards of a list carry the given attribute values. *)
Definition copies (n s f c : Z) (l : list Card) : nat :=
  length (filter (λ card, count card = n ∧ shape card = s
                          ∧ fill card = f ∧ color card = c) l).

(** * Properties *)

(** ** Lists *)

Section python_lists.
Context {A : Type}.
Implicit Types l r : list A.

Lemma list_pop_snoc l x : list_pop (l ++ [x]) = Some (x, l).
Proof.
  unfold list_pop. rewrite rev_app_distr. simpl. by rewrite rev_involutive.
Qed.

Lemma list_pop_Some l x r : list_pop l = Some (x, r) → l = r ++ [x].
Proof.
  unfold list_pop. intros H.
  destruct (rev l) as [|y t] eqn:E; [done|]. simplify_eq.
  rewrite <- (rev_involutive l), E. done.
Qed.

Lemma list_pop_None l : list_pop l = None → l = [].
Proof.
  unfold list_pop. destruct (rev l) eqn:E; [|done]. intros _.
  by rewrite <- (rev_involutive l), E.
Qed.

Lemma list_swap_perm i j l : list_swap i j l ≡ₚ l.
Proof.
  unfold list_swap.
  destruct (l !! i) eqn:Hi; [|done]. destruct (l !! j) eqn:Hj; [|done].
  by apply Permutation_insert_swap.
Qed.

Lemma shuffle_from_perm i draws l : shuffle_from i draws l ≡ₚ l.
Proof.
  revert draws l. induction i as [|i IH]; intros draws l; simpl; [done|].
  rewrite IH. apply list_swap_perm.
Qed.

Lemma shuffle_perm draws l : shuffle draws l ≡ₚ l.
Proof. apply shuffle_from_perm. Qed.
End python_lists.

Lemma Card_eqb_eq a b : Card_eqb a b = true ↔ a = b.
Proof.
  unfold Card_eqb. rewrite !andb_true_iff, !Z.eqb_eq.
  destruct a, b; simpl. split; [intros [[[[-> ->] ->] ->] ->]; done|].
  intros ?; simplify_eq. done.
Qed.

Lemma list_remove_Some x l l' :
  list_remove x l = Some l' →
  ∃ l1 l2, l = l1 ++ x :: l2 ∧ l' = l1 ++ l2 ∧ x ∉ l1.
Proof.
  revert l'. induction l as [|y l IH]; intros l' H; simpl in H; [done|].
  destruct (Card_eqb y x) eqn:E.
  - apply Card_eqb_eq in E as ->. simplify_eq.
    exists [], l'. split_and!; [done|done|]. apply not_elem_of_nil.
  - destruct (list_remove x l) as [t|] eqn:R; simplify_eq/=.
    destruct (IH _ eq_refl) as (l1 & l2 & -> & -> & Hx).
    exists (y :: l1), l2. split_and!; [done|done|].
    apply not_elem_of_cons. split; [|done].
    intros ->. assert (Card_eqb y y = true) by by apply Card_eqb_eq.
    congruence.
Qed.

Lemma list_remove_None x l : list_remove x l = None ↔ x ∉ l.
Proof.
  induction l as [|y l IH]; simpl.
  - split; [intros _; apply not_elem_of_nil|done].
  - destruct (Card_eqb y x) eqn:E.
    + apply Card_eqb_eq in E as ->. split; [done|].
      intros []. by left.
    + rewrite not_elem_of_cons, <- IH.
      destruct (list_remove x l); simpl; split; try done.
      * intros [_ ?]; done.
      * intros _. split; [|done]. intros ->.
        assert (Card_eqb y y = true) by by apply Card_eqb_eq. congruence.
Qed.

Lemma list_remove_sublist x l l' : list_remove x l = Some l' → l' `sublist_of` l.
Proof.
  intros (l1 & l2 & -> & -> & _)%list_remove_Some.
  apply sublist_app; [done|]. by apply sublist_cons.
Qed.

Lemma list_remove_length x l l' :
  list_remove x l = Some l' → length l = S (length l').
Proof.
  intros (l1 & l2 & -> & -> & _)%list_remove_Some.
  rewrite !length_app. simpl. lia.
Qed.

(** ** Dealing: cards leave the end of the deck for the end of the field *)

Lemma deals_nil g : deals [] g g.
Proof. split; simpl; [by rewrite app_nil_r|]. destruct g; simpl. by rewrite app_nil_r. Qed.

Lemma deals_step c dealt g g' d :
  deck g = d ++ [c] →
  deals dealt (set_field (field g ++ [c]) (set_deck d g)) g' →
  deals (c :: dealt) g g'.
Proof.
  intros Hd [H1 H2]; simpl in *. split.
  - rewrite Hd, H1. by rewrite <- app_assoc.
  - rewrite H2 at 1. unfold set_field, set_deck; simpl.
    by rewrite <- app_assoc.
Qed.

Lemma deals_snoc c dealt g g' d :
  deals dealt g g' → deck g' = d ++ [c] →
  deals (dealt ++ [c]) g (set_field (field g' ++ [c]) (set_deck d g')).
Proof.
  intros [H1 H2] Hd. split; simpl.
  - rewrite H1, Hd, rev_app_distr. simpl. by rewrite <- app_assoc.
  - destruct g, g'; unfold set_field, set_deck in *; simpl in *.
    simplify_eq. by rewrite <- app_assoc.
Qed.

Lemma deal_one_deals g :
  ∃ dealt, deals dealt g (deal_one g)
           ∧ length dealt = (1 `min` length (deck g))%nat.
Proof.
  unfold deal_one. destruct (list_pop (deck g)) as [[c d]|] eqn:E.
  - apply list_pop_Some in E. exists [c]. split.
    + eapply deals_step; [done|]. apply deals_nil.
    + rewrite E, length_app. cbn [length]. lia.
  - apply list_pop_None in E. exists []. split; [apply deals_nil|].
    rewrite E. done.
Qed.

Lemma iter_deal_one_deals n g :
  ∃ dealt, deals dealt g (Nat.iter n deal_one g)
           ∧ length dealt = (n `min` length (deck g))%nat.
Proof.
  induction n as [|n (dealt & Hd & Hlen)].
  - exists []. split; [apply deals_nil|done].
  - change (Nat.iter (S n) deal_one g) with (deal_one (Nat.iter n deal_one g)).
    unfold deal_one at 1.
    destruct (list_pop (deck (Nat.iter n deal_one g))) as [[c d]|] eqn:E.
    + apply list_pop_Some in E. exists (dealt ++ [c]). split.
      * by apply deals_snoc.
      * destruct Hd as [H1 _]. apply (f_equal length) in H1.
        rewrite E, !length_app, length_rev in H1.
        rewrite length_app. cbn [length] in *. lia.
    + apply list_pop_None in E. exists dealt. split; [done|].
      destruct Hd as [H1 _]. apply (f_equal length) in H1.
      rewrite E, length_app, length_rev in H1. cbn [length] in *. lia.
Qed.

Lemma refill_loop_deals fuel g :
  ∃ dealt,
    deals dealt g (refill_loop fuel g)
    ∧ length dealt
      = (fuel `min` ((12 - length (field g)) `min` length (deck g)))%nat.
Proof.
  revert g. induction fuel as [|fuel IH]; intros g.
  { exists []. split; [apply deals_nil|done]. }
  cbn [refill_loop].
  destruct (Nat.ltb_spec (length (field g)) 12) as [Hlt|Hge].
  - destruct (list_pop (deck g)) as [[c d]|] eqn:E.
    + apply list_pop_Some in E.
      destruct (IH (set_field (field g ++ [c]) (set_deck d g)))
        as (dealt & Hd & Hlen).
      exists (c :: dealt). split; [by eapply deals_step|].
      cbn [length field deck set_field set_deck] in *.
      rewrite Hlen, E, !length_app. cbn [length]. lia.
    + apply list_pop_None in E. exists []. split; [apply deals_nil|].
      rewrite E. cbn [length]. lia.
  - exists []. split; [apply deals_nil|]. cbn [length]. lia.
Qed.

(** The loop of [refill] does not stop for lack of fuel: it deals until the
    field holds 12 cards or the deck is empty. *)
Lemma refill_deals g :
  ∃ dealt,
    deals dealt g (refill g)
    ∧ length dealt = ((12 - length (field g)) `min` length (deck g))%nat.
Proof.
  destruct (refill_loop_deals (length (deck g)) g) as (dealt & Hd & Hlen).
  exists dealt. split; [done|]. lia.
Qed.

Lemma refill_done g :
  (12 ≤ length (field (refill g)))%nat ∨ deck (refill g) = [].
Proof.
  destruct (refill_deals g) as (dealt & [H1 H2] & Hlen).
  destruct (decide (12 ≤ length (field (refill g))))%nat as [|Hn]; [by left|right].
  rewrite H2 in Hn. simpl in Hn. rewrite length_app in Hn.
  apply (f_equal length) in H1. rewrite length_app, length_rev in H1.
  apply length_zero_iff_nil. lia.
Qed.

(** ** What a call of [pick_set] does, case by case *)

Lemma get_card_by_id_Some g i c :
  get_card_by_id g i = Some c → c ∈ field g ∧ id c = i.
Proof.
  unfold get_card_by_id. intros [Hin Heq]%find_some.
  split; [by apply list_elem_of_In|by apply Z.eqb_eq].
Qed.

Lemma get_card_by_id_None g i :
  get_card_by_id g i = None ↔ i ∉ id <$> field g.
Proof.
  unfold get_card_by_id. split.
  - intros H [c [-> Hc]]%list_elem_of_fmap.
    apply list_elem_of_In in Hc.
    pose proof (find_none _ _ H _ Hc) as E. simpl in E.
    by rewrite Z.eqb_refl in E.
  - intros H. destruct (find _ _) as [c|] eqn:E; [|done].
    apply find_some in E as [Hin Heq]. apply Z.eqb_eq in Heq. subst i.
    destruct H. apply list_elem_of_fmap. exists c.
    split; [done|by apply list_elem_of_In].
Qed.

Lemma set_field_id g : set_field (field g) g = g.
Proof. by destruct g. Qed.

Lemma pick_set_spec tok ids g r g' :
  pick_set tok ids g = (r, g') → pick_spec tok ids g r g'.
Proof.
  unfold pick_set.
  assert (rejected ids g →
          (score <~ players_get tok;; py_ret (false, score))%py g = (r, g') →
          pick_spec tok ids g r g') as Hrej.
  { intros Hbad. unfold py_bind, players_get, py_ret.
    destruct (players g !! tok) eqn:Hp; intros ?; simplify_eq;
      [by apply pick_rejected|by apply pick_rejected_unjoined]. }
  destruct (Nat.eqb_spec (length ids) 3) as [Hlen|Hlen]; simpl;
    [|apply Hrej; by left].
  destruct ids as [|i1 [|i2 [|i3 [|]]]]; try done. clear Hlen.
  unfold py_bind at 1, py_get. cbn [fmap list_fmap].
  destruct (get_card_by_id g i1) as [c1|] eqn:E1.
  2:{ apply Hrej. right. exists i1. rewrite <- get_card_by_id_None. set_solver. }
  destruct (get_card_by_id g i2) as [c2|] eqn:E2.
  2:{ apply Hrej. right. exists i2. rewrite <- get_card_by_id_None. set_solver. }
  destruct (get_card_by_id g i3) as [c3|] eqn:E3.
  2:{ apply Hrej. right. exists i3. rewrite <- get_card_by_id_None. set_solver. }
  clear Hrej.
  assert (get_card_by_id g <$> [i1; i2; i3] = [Some c1; Some c2; Some c3])
    as Hcards by (cbn; by rewrite E1, E2, E3).
  destruct (is_valid_set c1 c2 c3) eqn:Hset.
  - (* a set: remove, score, refill, check *)
    cbn [py_for].
    unfold players_add, py_bind, field_remove, players_get, py_modify, py_ret.
    destruct (list_remove c1 (field g)) as [f1|] eqn:R1; simpl.
    2:{ apply list_remove_None in R1. apply get_card_by_id_Some in E1 as [? _].
        done. }
    destruct (list_remove c2 f1) as [f2|] eqn:R2; simpl.
    2:{ intros ?; simplify_eq. eapply pick_hit_remove_fails; eauto. }
    destruct (list_remove c3 f2) as [f3|] eqn:R3; simpl.
    2:{ assert (set_field f2 (set_field f1 g) = set_field f2 g) as ->
          by by destruct g.
        intros ?; simplify_eq. eapply pick_hit_remove_fails; eauto 10. }
    assert (set_field f3 (set_field f2 (set_field f1 g)) = set_field f3 g)
      as -> by by destruct g.
    destruct (players g !! tok) as [s|] eqn:Hp; simpl.
    + assert (players (check_ended (refill
                (set_players (<[tok:=s + 1]> (players g)) (set_field f3 g))))
              !! tok = Some (s + 1)) as ->.
      { destruct (refill_deals
                    (set_players (<[tok:=s + 1]> (players g)) (set_field f3 g)))
          as (dealt & [_ ->] & _).
        unfold check_ended. simpl.
        repeat case_match; simpl; by rewrite lookup_insert_eq. }
      intros ?; simplify_eq. eapply pick_hit; eauto. by exists f1, f2.
    + intros ?; simplify_eq. eapply pick_hit_unjoined; eauto. by exists f1, f2.
  - (* no set: the penalty *)
    unfold players_add, py_bind, players_get, py_modify, py_ret.
    destruct (players g !! tok) as [s|] eqn:Hp; simpl.
    + rewrite lookup_insert_eq. intros ?; simplify_eq.
      replace (s + -1) with (s - 1) by lia.
      eapply pick_miss; eauto.
    + intros ?; simplify_eq. eapply pick_miss_unjoined; eauto.
Qed.

Lemma pick_set_spec' tok ids g :
  pick_spec tok ids g (pick_set tok ids g).1 (pick_set tok ids g).2.
Proof. apply pick_set_spec. by destruct (pick_set tok ids g). Qed.

(** ** The cards in play *)

Lemma check_ended_deck g : deck (check_ended g) = deck g.
Proof. unfold check_ended. by repeat case_match. Qed.

Lemma check_ended_field g : field (check_ended g) = field g.
Proof. unfold check_ended. by repeat case_match. Qed.

Lemma check_ended_players g : players (check_ended g) = players g.
Proof. unfold check_ended. by repeat case_match. Qed.

Lemma check_ended_status g :
  status (check_ended g)
  = if bool_decide (deck g = [] ∧ (length (field g) < 3)%nat)
    then "ended"%string else status g.
Proof.
  unfold check_ended. destruct (deck g) eqn:Ed.
  - destruct (Nat.ltb_spec (length (field g)) 3).
    + rewrite bool_decide_eq_true_2; [done|]. split; [done|lia].
    + rewrite bool_decide_eq_false_2; [done|]. intros [_ ?]. lia.
  - rewrite bool_decide_eq_false_2; [done|]. by intros [? _].
Qed.

Lemma deals_cards dealt g g' : deals dealt g g' → cards g' ≡ₚ cards g.
Proof.
  intros [H1 H2]. unfold cards. rewrite H1, H2. simpl.
  rewrite <- (Permutation_rev dealt), <- !app_assoc.
  f_equiv. apply Permutation_app_comm.
Qed.

Lemma deals_length dealt g g' :
  deals dealt g g' →
  length (field g') = (length (field g) + length dealt)%nat
  ∧ length (deck g) = (length (deck g') + length dealt)%nat.
Proof.
  intros [H1 H2]. rewrite H1, H2 at 1. simpl.
  by rewrite !length_app, length_rev.
Qed.

Lemma deals_players dealt g g' : deals dealt g g' → players g' = players g.
Proof. by intros [_ ->]. Qed.

Lemma deals_status dealt g g' : deals dealt g g' → status g' = status g.
Proof. by intros [_ ->]. Qed.

Lemma removes3_sublist c1 c2 c3 f f3 :
  removes3 c1 c2 c3 f f3 → f3 `sublist_of` f.
Proof.
  intros (f1 & f2 & R1 & R2 & R3).
  apply list_remove_sublist in R1, R2, R3. by etrans; [etrans|].
Qed.

Lemma removes3_length c1 c2 c3 f f3 :
  removes3 c1 c2 c3 f f3 → length f = (length f3 + 3)%nat.
Proof.
  intros (f1 & f2 & R1 & R2 & R3).
  apply list_remove_length in R1, R2, R3. lia.
Qed.

(** A pick never brings a card into play: whatever its outcome, the cards
    left in play are among those that were, and only cards of the field
    can have gone. *)
Lemma pick_spec_cards tok ids g r g' :
  pick_spec tok ids g r g' → cards g' ⊆+ cards g.
Proof.
  destruct 1 as [| | | |c1 c2 c3 f3 s _ _ Hrm _|c1 c2 c3 f3 _ _ Hrm _
                |c1 c2 c3 f' _ _ Hrm]; try done.
  - set (g1 := set_players _ _).
    destruct (refill_deals g1) as (dealt & Hd%deals_cards & _).
    unfold cards at 1. rewrite check_ended_deck, check_ended_field.
    fold (cards (refill g1)). rewrite Hd. unfold cards, g1. simpl.
    apply submseteq_skips_l, sublist_submseteq. by eapply removes3_sublist.
  - unfold cards. simpl.
    apply submseteq_skips_l, sublist_submseteq. by eapply removes3_sublist.
  - unfold cards. simpl. apply submseteq_skips_l, sublist_submseteq.
    destruct Hrm as [[R1 _]|(f1 & R1 & R2 & _)].
    + by eapply list_remove_sublist.
    + etrans; by eapply list_remove_sublist.
Qed.

Lemma add_cards_cards g : cards (add_cards g) ≡ₚ cards g.
Proof.
  destruct (iter_deal_one_deals 3 g) as (dealt & Hd & _).
  by eapply deals_cards.
Qed.

Lemma add_player_cards tok g : cards (add_player tok g) = cards g.
Proof. unfold add_player. by case_match. Qed.

Lemma run_op_cards o g : cards (run_op o g) ⊆+ cards g.
Proof.
  destruct o as [tok ids| |tok]; simpl.
  - eapply pick_spec_cards, pick_set_spec'.
  - by rewrite add_cards_cards.
  - by rewrite add_player_cards.
Qed.

Lemma full_deck_ids : id <$> full_deck = seqZ 0 81.
Proof. vm_compute. reflexivity. Qed.

Lemma full_deck_length : length full_deck = 81%nat.
Proof. vm_compute. reflexivity. Qed.

Opaque full_deck.

Lemma initialize_deck_new gid draws :
  _initialize_deck draws (mkGameRoom gid [] [] ∅ "ongoing")
  = mkGameRoom gid (shuffle draws full_deck) [] ∅ "ongoing".
Proof. reflexivity. Qed.

(** Construction: the shuffled full deck, of which the last 12 cards are
    dealt. *)
Lemma new_GameRoom_deals gid draws :
  ∃ dealt,
    deals dealt
      (mkGameRoom gid (shuffle draws full_deck) [] ∅ "ongoing")
      (new_GameRoom gid draws)
    ∧ length dealt = 12%nat.
Proof.
  destruct (iter_deal_one_deals 12
              (_initialize_deck draws (mkGameRoom gid [] [] ∅ "ongoing")))
    as (dealt & Hd & Hlen).
  rewrite initialize_deck_new in Hd, Hlen.
  exists dealt. split; [exact Hd|].
  cbn [deck] in Hlen. rewrite shuffle_perm in Hlen.
  rewrite full_deck_length in Hlen. exact Hlen.
Qed.

Opaque new_GameRoom.

Lemma sample_room_eq :
  sample_room = run_op (AddPlayer alice) (new_GameRoom 0 []).
Proof. unfold sample_room. reflexivity. Qed.

Opaque sample_room.

Lemma new_GameRoom_cards gid draws : cards (new_GameRoom gid draws) ≡ₚ full_deck.
Proof.
  destruct (new_GameRoom_deals gid draws) as (dealt & Hd%deals_cards & _).
  rewrite Hd. unfold cards. cbn [deck field]. rewrite app_nil_r.
  apply shuffle_perm.
Qed.

Lemma reachable_cards g : reachable g → cards g ⊆+ full_deck.
Proof.
  induction 1 as [gid draws|o g _ IH].
  - by rewrite new_GameRoom_cards.
  - etrans; [apply run_op_cards|done].
Qed.

Lemma run_ops_snoc os o g : run_ops (os ++ [o]) g = run_op o (run_ops os g).
Proof. unfold run_ops. by rewrite foldl_snoc. Qed.

Lemma reachable_run_ops g :
  reachable g ↔ ∃ gid draws os, g = run_ops os (new_GameRoom gid draws).
Proof.
  split.
  - induction 1 as [gid draws|o g _ (gid & draws & os & ->)].
    + exists gid, draws, []. reflexivity.
    + exists gid, draws, (os ++ [o]). by rewrite run_ops_snoc.
  - intros (gid & draws & os & ->).
    induction os as [|o os IH] using rev_ind; [constructor|].
    rewrite run_ops_snoc. by constructor.
Qed.

Lemma submseteq_NoDup {A} (l k : list A) : l ⊆+ k → NoDup k → NoDup l.
Proof.
  intros [k' Hk]%submseteq_Permutation. rewrite Hk.
  by intros [? _]%NoDup_app.
Qed.

Lemma reachable_ids g :
  reachable g → id <$> cards g ⊆+ seqZ 0 81.
Proof.
  intros H%reachable_cards. rewrite <- full_deck_ids. by apply fmap_submseteq.
Qed.

Lemma reachable_NoDup_ids g : reachable g → NoDup (id <$> cards g).
Proof.
  intros H%reachable_ids. eapply submseteq_NoDup; [done|]. apply NoDup_seqZ.
Qed.

Lemma reachable_NoDup_field_ids g : reachable g → NoDup (id <$> field g).
Proof.
  intros H%reachable_NoDup_ids. unfold cards in H.
  rewrite fmap_app in H. by apply NoDup_app in H as (_ & _ & ?).
Qed.

(** ** The matching rule *)

Lemma check_property_coherent v1 v2 v3 :
  check_property v1 v2 v3 = true ↔ coherent v1 v2 v3.
Proof.
  unfold check_property, coherent.
  rewrite orb_true_iff, !andb_true_iff, !negb_true_iff, !Z.eqb_eq, !Z.eqb_neq.
  tauto.
Qed.

Lemma two_equal_not_coherent v1 v2 v3 : two_equal v1 v2 v3 → ¬ coherent v1 v2 v3.
Proof. unfold two_equal, coherent. lia. Qed.

Lemma is_valid_set_coherent c1 c2 c3 :
  is_valid_set c1 c2 c3 = true
  ↔ Forall (λ attr, coherent (attr c1) (attr c2) (attr c3)) attributes.
Proof.
  unfold is_valid_set, attributes.
  rewrite !andb_true_iff, !check_property_coherent, !Forall_cons, Forall_nil.
  tauto.
Qed.

(** C5.  [is_valid_set] holds of three cards exactly when each of count,
    shape, fill and color is coherent on them, that is all equal or pairwise
    distinct; an attribute on which exactly two of the cards agree makes it
    false. *)
Theorem is_valid_set_correct c1 c2 c3 :
  (is_valid_set c1 c2 c3 = true
   ↔ Forall (λ attr, coherent (attr c1) (attr c2) (attr c3)) attributes)
  ∧ (∀ attr, attr ∈ attributes →
       two_equal (attr c1) (attr c2) (attr c3) →
       is_valid_set c1 c2 c3 = false).
Proof.
  split; [apply is_valid_set_coherent|].
  intros attr Hin Htwo. apply not_true_is_false.
  rewrite is_valid_set_coherent, Forall_forall.
  intros Hall. by eapply two_equal_not_coherent, Hall.
Qed.

Lemma is_valid_set_correct_witness :
  is_valid_set (mkCard 0 1 1 1 1) (mkCard 9 1 2 1 1) (mkCard 18 1 3 1 1) = true
  ∧ is_valid_set (mkCard 0 1 1 1 1) (mkCard 1 2 1 1 1) (mkCard 9 1 2 1 1) = false.
Proof.
  split.
  - apply (proj1 (is_valid_set_correct _ _ _)).
    unfold attributes, coherent. repeat constructor; simpl; lia.
  - apply (proj2 (is_valid_set_correct _ _ _) shape).
    + unfold attributes. do 1 constructor. constructor.
    + unfold two_equal. simpl. lia.
Defined.

(** ** A new room *)

Lemma copies_perm n s f c l k : l ≡ₚ k → copies n s f c l = copies n s f c k.
Proof. unfold copies. by intros ->. Qed.

Lemma full_deck_copies n s f c :
  n ∈ [1; 2; 3] → s ∈ [1; 2; 3] → f ∈ [1; 2; 3] → c ∈ [1; 2; 3] →
  copies n s f c full_deck = 1%nat.
Proof.
  intros Hn Hs Hf Hc.
  repeat (apply elem_of_cons in Hn as [->|Hn]); [| | |by apply elem_of_nil in Hn];
  (repeat (apply elem_of_cons in Hs as [->|Hs]); [| | |by apply elem_of_nil in Hs]);
  (repeat (apply elem_of_cons in Hf as [->|Hf]); [| | |by apply elem_of_nil in Hf]);
  (repeat (apply elem_of_cons in Hc as [->|Hc]); [| | |by apply elem_of_nil in Hc]);
  vm_compute; reflexivity.
Qed.

Lemma new_GameRoom_sizes gid draws :
  length (field (new_GameRoom gid draws)) = 12%nat
  ∧ length (deck (new_GameRoom gid draws)) = 69%nat
  ∧ status (new_GameRoom gid draws) = "ongoing"%string.
Proof.
  destruct (new_GameRoom_deals gid draws) as (dealt & Hd & Hdealt).
  pose proof (deals_length _ _ _ Hd) as [Hf Hdk].
  pose proof (deals_status _ _ _ Hd) as Hst.
  cbn [field deck status length] in Hf, Hdk, Hst.
  rewrite shuffle_perm, full_deck_length in Hdk.
  split_and!; [lia|lia|exact Hst].
Qed.

(** C8.  A room just built holds, in deck and field together, exactly 81
    cards, one for every combination of the four three-valued attributes; 12
    of them lie in the field and 69 in the deck, and the status is
    "ongoing". *)
Theorem new_GameRoom_initial gid draws :
  let g := new_GameRoom gid draws in
  length (cards g) = 81%nat
  ∧ (∀ n s f c,
       n ∈ [1; 2; 3] → s ∈ [1; 2; 3] → f ∈ [1; 2; 3] → c ∈ [1; 2; 3] →
       copies n s f c (cards g) = 1%nat)
  ∧ length (field g) = 12%nat
  ∧ length (deck g) = 69%nat
  ∧ status g = "ongoing"%string.
Proof.
  intros g.
  pose proof (new_GameRoom_cards gid draws) as Hperm. fold g in Hperm.
  destruct (new_GameRoom_sizes gid draws) as (Hf & Hd & Hst). fold g in Hf, Hd, Hst.
  split_and!; [by rewrite Hperm, full_deck_length| |done|done|done].
  intros n s f c Hn Hs Hf' Hc.
  rewrite (copies_perm _ _ _ _ _ _ Hperm). by apply full_deck_copies.
Qed.

Lemma new_GameRoom_initial_witness :
  copies 2 3 1 2 (cards (new_GameRoom 0 [5; 3; 8]%nat)) = 1%nat.
Proof.
  apply (new_GameRoom_initial 0 [5; 3; 8]%nat);
    repeat first [apply list_elem_of_here | apply list_elem_of_further].
Defined.

(** ** Rejected picks and scores *)

Lemma found3_not_rejected g ids c1 c2 c3 :
  get_card_by_id g <$> ids = [Some c1; Some c2; Some c3] → ¬ rejected ids g.
Proof.
  intros H [Hlen|(i & Hi & Hni)].
  - apply (f_equal length) in H. rewrite length_fmap in H. done.
  - apply get_card_by_id_None in Hni.
    apply (list_elem_of_fmap_2 (get_card_by_id g)) in Hi.
    rewrite H, Hni in Hi.
    repeat (apply elem_of_cons in Hi as [?|Hi]; [done|]).
    by apply elem_of_nil in Hi.
Qed.

Lemma pick_set_rejected tok ids g s :
  players g !! tok = Some s → rejected ids g →
  pick_set tok ids g = (Ret (false, s), g).
Proof.
  intros Hp Hbad. destruct (pick_set tok ids g) as [r g'] eqn:E.
  apply pick_set_spec in E.
  destruct E as [s' _ Hp'| |c1 c2 c3 s' Hc|c1 c2 c3 Hc|c1 c2 c3 f3 s' Hc
                |c1 c2 c3 f3 Hc|c1 c2 c3 f' Hc];
    try (by apply found3_not_rejected in Hc); congruence.
Qed.

Lemma sample_room_reachable : reachable sample_room.
Proof. rewrite sample_room_eq. apply reach_op, reach_new. Qed.

Lemma sample_room_alice : players sample_room !! alice = Some 0.
Proof. vm_compute. reflexivity. Qed.

(** C10.  A pick by a joined token with other than three ids, or with an
    id that no card of the field carries, returns matched = false and the
    caller's present score, and leaves the room as it was: deck, field,
    status and all scores, no penalty included. *)
Theorem pick_set_rejected_no_change tok ids g s :
  players g !! tok = Some s →
  length ids ≠ 3%nat ∨ (∃ i, i ∈ ids ∧ i ∉ id <$> field g) →
  pick_set tok ids g = (Ret (false, s), g).
Proof. apply pick_set_rejected. Qed.

Lemma pick_set_rejected_no_change_witness :
  pick_set alice [70; 71] sample_room = (Ret (false, 0), sample_room).
Proof.
  apply pick_set_rejected_no_change.
  - vm_compute. reflexivity.
  - left. simpl. lia.
Defined.

Lemma pick_spec_scores tok ids g s matched score g' :
  players g !! tok = Some s →
  pick_spec tok ids g (Ret (matched, score)) g' →
  players g' !! tok = Some score
  ∧ (matched = true → score = s + 1)
  ∧ (matched = false →
       rejected ids g ∧ score = s ∨ ¬ rejected ids g ∧ score = s - 1)
  ∧ (∀ tok', tok' ≠ tok → players g' !! tok' = players g !! tok').
Proof.
  intros Hp E. inversion E; subst; simplify_eq.
  - split_and!; [done|done|intros _; left; by split|done].
  - split_and!; [by simpl; rewrite lookup_insert_eq|done| |].
    + intros _. right. split; [by eapply found3_not_rejected|done].
    + intros tok' Hne. simpl. by rewrite lookup_insert_ne.
  - set (g1 := set_players _ _).
    destruct (refill_deals g1) as (dealt & Hd%deals_players & _).
    rewrite check_ended_players, Hd. unfold g1. simpl.
    split_and!; [by rewrite lookup_insert_eq|done|done|].
    intros tok' Hne. by rewrite lookup_insert_ne.
Qed.

Lemma add_cards_players g : players (add_cards g) = players g.
Proof.
  destruct (iter_deal_one_deals 3 g) as (dealt & Hd & _).
  by eapply deals_players.
Qed.

Lemma add_player_keeps tok g tok' s :
  players g !! tok' = Some s → players (add_player tok g) !! tok' = Some s.
Proof.
  intros Hp. unfold add_player. destruct (players g !! tok) eqn:E; [done|].
  simpl. rewrite lookup_insert_ne; [done|]. congruence.
Qed.

(** C3, as the code has it.  A pick by a joined token that returns
    matched = true leaves the caller's score one higher; one that returns
    matched = false leaves it one lower when three ids of field cards were
    submitted, and unchanged when the pick was rejected (not three ids, or an
    id not in the field).  The returned integer is the caller's score after
    the call, no other player's score changes, [add_cards] changes no score
    and [add_player] changes no score that exists. *)
Theorem pick_set_score_change tok g :
  (∀ ids s matched score g',
     players g !! tok = Some s →
     pick_set tok ids g = (Ret (matched, score), g') →
     players g' !! tok = Some score
     ∧ (matched = true → score = s + 1)
     ∧ (matched = false →
          rejected ids g ∧ score = s ∨ ¬ rejected ids g ∧ score = s - 1)
     ∧ (∀ tok', tok' ≠ tok → players g' !! tok' = players g !! tok'))
  ∧ players (add_cards g) = players g
  ∧ (∀ tok' s, players g !! tok' = Some s →
               players (add_player tok g) !! tok' = Some s).
Proof.
  split_and!.
  - intros ids s matched score g' Hp E%pick_set_spec.
    by eapply pick_spec_scores.
  - apply add_cards_players.
  - intros tok' s. apply add_player_keeps.
Qed.

Lemma pick_set_score_change_witness :
  players (pick_set alice [0; 80; 79] sample_room).2 !! alice = Some (-1).
Proof.
  eapply (proj1 (pick_set_score_change alice sample_room)
            [0; 80; 79] 0 false (-1)).
  - vm_compute. reflexivity.
  - vm_compute. reflexivity.
Defined.

(** C3 as stated fails: a rejected pick returns matched = false and costs
    nothing. *)
Lemma pick_set_score_change_counterexample :
  ¬ (∀ tok ids g s matched score g',
       reachable g →
       players g !! tok = Some s →
       pick_set tok ids g = (Ret (matched, score), g') →
       (matched = true → players g' !! tok = Some (s + 1))
       ∧ (matched = false → players g' !! tok = Some (s - 1))).
Proof.
  intros H.
  destruct (H alice [] sample_room 0 false 0 sample_room) as [_ Hfalse].
  - apply sample_room_reachable.
  - apply sample_room_alice.
  - apply pick_set_rejected; [apply sample_room_alice|by left].
  - specialize (Hfalse eq_refl). rewrite sample_room_alice in Hfalse. done.
Qed.

(** ** What a pick does to field and deck *)

Lemma filter_all {A} (P : A → Prop) `{!∀ x, Decision (P x)} (l : list A) :
  Forall P l → filter P l = l.
Proof.
  induction 1 as [|x l Hx _ IH]; [done|].
  by rewrite filter_cons_True, IH.
Qed.

(** In a list without two cards of one id, [remove] takes out the card of
    that id and nothing else. *)
Lemma list_remove_filter c l l' :
  NoDup (id <$> l) → list_remove c l = Some l' →
  l' = filter (λ x, id x ≠ id c) l ∧ c ∈ l.
Proof.
  revert l'. induction l as [|y l IH]; intros l' Hnd R; [done|].
  rewrite fmap_cons in Hnd. apply NoDup_cons in Hnd as [Hy Hnd].
  simpl in R. destruct (Card_eqb y c) eqn:E.
  - apply Card_eqb_eq in E as ->. simplify_eq.
    rewrite filter_cons_False by (intros ?; done).
    split; [|by left]. symmetry. apply filter_all, Forall_forall.
    intros x Hx Heq. apply Hy. rewrite <- Heq. by apply list_elem_of_fmap_2.
  - destruct (list_remove c l) as [t|] eqn:R'; simplify_eq/=.
    destruct (IH _ Hnd eq_refl) as [-> Hc].
    split; [|by right].
    rewrite filter_cons_True; [done|].
    intros Heq. apply Hy. rewrite Heq. by apply list_elem_of_fmap_2.
Qed.

Lemma filter_ids_NoDup (P : Card → Prop) `{!∀ x, Decision (P x)} l :
  NoDup (id <$> l) → NoDup (id <$> filter P l).
Proof.
  intros Hnd. eapply sublist_NoDup; [done|].
  apply fmap_sublist, sublist_filter.
Qed.

Lemma removes3_filter c1 c2 c3 f f3 :
  NoDup (id <$> f) → removes3 c1 c2 c3 f f3 →
  f3 = filter (λ c, id c ∉ [id c1; id c2; id c3]) f
  ∧ NoDup [id c1; id c2; id c3].
Proof.
  intros Hnd (f1 & f2 & R1 & R2 & R3).
  destruct (list_remove_filter _ _ _ Hnd R1) as [-> H1].
  pose proof (filter_ids_NoDup (λ x, id x ≠ id c1) f Hnd) as Hnd1.
  destruct (list_remove_filter _ _ _ Hnd1 R2) as [-> H2].
  pose proof (filter_ids_NoDup (λ x, id x ≠ id c2) _ Hnd1) as Hnd2.
  destruct (list_remove_filter _ _ _ Hnd2 R3) as [-> H3].
  apply list_elem_of_filter in H2 as [H21 H2].
  apply list_elem_of_filter in H3 as [H32 H3].
  apply list_elem_of_filter in H3 as [H31 H3].
  split.
  - rewrite !list_filter_filter. apply list_filter_iff. intros x.
    rewrite !not_elem_of_cons.
    pose proof (not_elem_of_nil (id x)). tauto.
  - pose proof (not_elem_of_nil (id c1)).
    pose proof (not_elem_of_nil (id c2)).
    pose proof (not_elem_of_nil (id c3)).
    rewrite !NoDup_cons, !not_elem_of_cons.
    split_and!; try done; try apply NoDup_nil_2; congruence.
Qed.

Lemma found3_ids g ids c1 c2 c3 :
  get_card_by_id g <$> ids = [Some c1; Some c2; Some c3] →
  ids = [id c1; id c2; id c3].
Proof.
  destruct ids as [|i1 [|i2 [|i3 [|]]]]; try done. cbn. intros ?; simplify_eq.
  repeat match goal with
         | H : get_card_by_id _ _ = Some _ |- _ =>
             apply get_card_by_id_Some in H as [_ <-]
         end.
  done.
Qed.

Lemma pick_spec_field_deck tok ids g matched score g' :
  NoDup (id <$> field g) →
  pick_spec tok ids g (Ret (matched, score)) g' →
  if matched then
    ∃ dealt,
      NoDup ids
      ∧ field g' = filter (λ c, id c ∉ ids) (field g) ++ dealt
      ∧ length (filter (λ c, id c ∉ ids) (field g)) = (length (field g) - 3)%nat
      ∧ deck g = deck g' ++ rev dealt
      ∧ length dealt
        = ((12 - (length (field g) - 3)) `min` length (deck g))%nat
      ∧ length (deck g') = (length (deck g) - length dealt)%nat
  else field g' = field g ∧ deck g' = deck g.
Proof.
  intros Hnd E. inversion E as [| | | |c1 c2 c3 f3 s Hc Hv Hrm Hp| |]; subst; try done.
  set (g1 := set_players _ _).
  destruct (refill_deals g1) as (dealt & Hd & Hlen).
  pose proof (removes3_length _ _ _ _ _ Hrm) as Hl3.
  destruct (removes3_filter _ _ _ _ _ Hnd Hrm) as [Hf3 Hnd3].
  apply found3_ids in Hc as ->.
  pose proof Hd as [Hdeck Hg']. exists dealt.
  rewrite check_ended_field, check_ended_deck.
  cbn [field deck g1 set_players set_field] in *.
  split_and!.
  - done.
  - rewrite Hg' at 1. simpl. by rewrite Hf3.
  - rewrite <- Hf3. lia.
  - done.
  - rewrite Hlen. f_equal. lia.
  - apply (f_equal length) in Hdeck.
    rewrite length_app, length_rev in Hdeck. lia.
Qed.

(** C7.  In a room that can be reached, a pick that returns matched = true
    takes exactly the three submitted cards out of the field and then deals
    from the end of the deck, one card at a time, until the field holds 12
    cards or the deck is empty; the deck loses exactly the cards dealt.  A
    pick that returns matched = false leaves the field (and the deck) as it
    was. *)
Theorem pick_set_field_deck tok ids g matched score g' :
  reachable g →
  pick_set tok ids g = (Ret (matched, score), g') →
  if matched then
    ∃ dealt,
      NoDup ids
      ∧ field g' = filter (λ c, id c ∉ ids) (field g) ++ dealt
      ∧ length (filter (λ c, id c ∉ ids) (field g)) = (length (field g) - 3)%nat
      ∧ deck g = deck g' ++ rev dealt
      ∧ length dealt
        = ((12 - (length (field g) - 3)) `min` length (deck g))%nat
      ∧ length (deck g') = (length (deck g) - length dealt)%nat
  else field g' = field g ∧ deck g' = deck g.
Proof.
  intros Hr E%pick_set_spec.
  eapply pick_spec_field_deck; [by apply reachable_NoDup_field_ids|done].
Qed.

Lemma pick_set_field_deck_witness :
  ∃ dealt,
    NoDup [78; 79; 80]
    ∧ field (pick_set alice [78; 79; 80] sample_room).2
      = filter (λ c, id c ∉ [78; 79; 80]) (field sample_room) ++ dealt
    ∧ length (filter (λ c, id c ∉ [78; 79; 80]) (field sample_room))
      = (length (field sample_room) - 3)%nat
    ∧ deck sample_room
      = deck (pick_set alice [78; 79; 80] sample_room).2 ++ rev dealt
    ∧ length dealt
      = ((12 - (length (field sample_room) - 3))
         `min` length (deck sample_room))%nat
    ∧ length (deck (pick_set alice [78; 79; 80] sample_room).2)
      = (length (deck sample_room) - length dealt)%nat.
Proof.
  apply (pick_set_field_deck alice [78; 79; 80] sample_room true 1
           (pick_set alice [78; 79; 80] sample_room).2).
  - apply sample_room_reachable.
  - vm_compute. reflexivity.
Defined.

(** ** How many cards there are *)

Lemma remove_dups_NoDup {A} `{EqDecision A} (l : list A) :
  NoDup l → remove_dups l = l.
Proof.
  induction 1 as [|x l Hx _ IH]; [done|]. simpl.
  destruct (decide_rel _ x l); [done|]. by rewrite IH.
Qed.

Lemma list_remove_perm c l l' : list_remove c l = Some l' → l ≡ₚ c :: l'.
Proof.
  intros (l1 & l2 & -> & -> & _)%list_remove_Some.
  by rewrite Permutation_middle.
Qed.

Lemma removes3_perm c1 c2 c3 f f3 :
  removes3 c1 c2 c3 f f3 → f ≡ₚ c1 :: c2 :: c3 :: f3.
Proof.
  intros (f1 & f2 & R1%list_remove_perm & R2%list_remove_perm
          & R3%list_remove_perm).
  by rewrite R1, R2, R3.
Qed.

Lemma pick_spec_keeps_cards tok ids g score g' :
  pick_spec tok ids g (Ret (false, score)) g' → cards g' = cards g.
Proof. intros E. by inversion E. Qed.

Lemma pick_spec_takes_ids tok ids g score g' :
  pick_spec tok ids g (Ret (true, score)) g' →
  id <$> cards g ≡ₚ ids ++ (id <$> cards g').
Proof.
  intros E. inversion E as [| | | |c1 c2 c3 f3 s Hc Hv Hrm Hp| |]; subst.
  set (g1 := set_players _ _).
  destruct (refill_deals g1) as (dealt & Hd%deals_cards & _).
  apply found3_ids in Hc as ->.
  unfold cards at 2. rewrite check_ended_deck, check_ended_field.
  fold (cards (refill g1)). rewrite Hd.
  unfold cards, g1. cbn [deck field set_players set_field].
  rewrite (removes3_perm _ _ _ _ _ Hrm), !fmap_app, !fmap_cons.
  rewrite (Permutation_app_comm (id <$> deck g)). simpl.
  do 3 f_equiv. apply Permutation_app_comm.
Qed.

(** C1, as the code has it.  A room just built holds exactly the 81 ids
    0..80.  In every state a room can reach, the ids of deck and field
    together are pairwise distinct and are among those 81, so there are at
    most 81 of them.  [add_cards] and a pick that returns matched = false
    keep the cards in play; a pick that returns matched = true takes exactly
    the three submitted ids out of play. *)
Theorem ids_in_play :
  (∀ gid draws,
     id <$> cards (new_GameRoom gid draws) ≡ₚ seqZ 0 81
     ∧ unique_ids (new_GameRoom gid draws) = 81%nat)
  ∧ (∀ g, reachable g →
       NoDup (id <$> cards g)
       ∧ id <$> cards g ⊆+ seqZ 0 81
       ∧ (unique_ids g ≤ 81)%nat)
  ∧ (∀ g, cards (add_cards g) ≡ₚ cards g)
  ∧ (∀ g tok ids score g',
       pick_set tok ids g = (Ret (false, score), g') → cards g' = cards g)
  ∧ (∀ g tok ids score g',
       pick_set tok ids g = (Ret (true, score), g') →
       id <$> cards g ≡ₚ ids ++ (id <$> cards g')).
Proof.
  assert (∀ g, reachable g → unique_ids g = length (cards g)) as Huniq.
  { intros g Hr. unfold unique_ids.
    by rewrite remove_dups_NoDup, length_fmap by by apply reachable_NoDup_ids. }
  split_and!.
  - intros gid draws. split.
    + by rewrite new_GameRoom_cards, full_deck_ids.
    + rewrite Huniq by constructor.
      by rewrite new_GameRoom_cards, full_deck_length.
  - intros g Hr. split_and!.
    + by apply reachable_NoDup_ids.
    + by apply reachable_ids.
    + rewrite Huniq by done. rewrite <- full_deck_length.
      by apply submseteq_length, reachable_cards.
  - apply add_cards_cards.
  - intros g tok ids score g' E%pick_set_spec.
    by eapply pick_spec_keeps_cards.
  - intros g tok ids score g' E%pick_set_spec.
    by eapply pick_spec_takes_ids.
Qed.

Lemma ids_in_play_witness :
  NoDup (id <$> cards sample_room)
  ∧ id <$> cards sample_room ≡ₚ
      [78; 79; 80] ++ (id <$> cards (pick_set alice [78; 79; 80] sample_room).2).
Proof.
  destruct ids_in_play as (_ & Hreach & _ & _ & Hhit). split.
  - apply (Hreach sample_room sample_room_reachable).
  - apply (Hhit sample_room alice [78; 79; 80] 1). vm_compute. reflexivity.
Defined.

(** C1 as stated fails: the three cards of a set that was picked leave
    both the deck and the field. *)
Lemma unique_ids_counterexample :
  ¬ (∀ g, reachable g → unique_ids g = 81%nat).
Proof.
  intros H.
  specialize (H (run_op (Pick alice [78; 79; 80]) sample_room)
                (reach_op _ _ sample_room_reachable)).
  vm_compute in H. discriminate H.
Qed.

Lemma pick_spec_field_bound tok ids g r g' :
  pick_spec tok ids g r g' →
  (length (field g') ≤ length (field g) `max` 12)%nat.
Proof.
  destruct 1 as [| | | |c1 c2 c3 f3 s _ _ Hrm _|c1 c2 c3 f3 _ _ Hrm _
                |c1 c2 c3 f' _ _ Hrm]; cbn [field set_players set_field];
    try lia.
  - set (g1 := set_players _ _).
    destruct (refill_deals g1) as (dealt & Hd%deals_length & Hlen).
    apply removes3_length in Hrm. rewrite check_ended_field.
    destruct Hd as [-> _]. unfold g1 in *.
    cbn [field set_players set_field] in *. lia.
  - apply removes3_length in Hrm. lia.
  - destruct Hrm as [[R1 _]|(f1 & R1 & R2 & _)];
      apply list_remove_length in R1; try apply list_remove_length in R2; lia.
Qed.

Lemma run_op_field_bound o g :
  (length (field (run_op o g))
   ≤ if is_add_cards o then length (field g) + 3
     else length (field g) `max` 12)%nat.
Proof.
  destruct o as [tok ids| |tok]; cbn [run_op is_add_cards].
  - eapply pick_spec_field_bound, pick_set_spec'.
  - destruct (iter_deal_one_deals 3 g) as (dealt & Hd%deals_length & Hlen).
    change (Nat.iter 3 deal_one g) with (add_cards g) in Hd.
    destruct Hd as [-> _]. lia.
  - unfold add_player. case_match; cbn [field set_players]; lia.
Qed.

Lemma count_add_cards_snoc os o :
  count_add_cards (os ++ [o])
  = (count_add_cards os + if is_add_cards o then 1 else 0)%nat.
Proof.
  unfold count_add_cards. rewrite filter_app, length_app. f_equal.
  destruct o; reflexivity.
Qed.

Lemma run_ops_reachable gid draws os :
  reachable (run_ops os (new_GameRoom gid draws)).
Proof. apply reachable_run_ops. eauto. Qed.

(** C4, as the code has it.  After any history of calls on a new room, the
    field holds at most 12 + 3k cards, where k is the number of [add_cards]
    calls in the history, and never more than 81; so at most 15 as long as
    [add_cards] was called at most once. *)
Theorem field_size_bound gid draws os :
  let g := run_ops os (new_GameRoom gid draws) in
  (0 ≤ length (field g) ≤ 12 + 3 * count_add_cards os)%nat
  ∧ (length (field g) ≤ 81)%nat.
Proof.
  cbn zeta. split.
  - split; [lia|]. induction os as [|o os IH] using rev_ind.
    + destruct (new_GameRoom_sizes gid draws) as (Hf & _).
      cbn [run_ops foldl]. rewrite Hf. lia.
    + rewrite run_ops_snoc, count_add_cards_snoc.
      pose proof (run_op_field_bound o (run_ops os (new_GameRoom gid draws))).
      destruct (is_add_cards o); lia.
  - pose proof (reachable_cards _ (run_ops_reachable gid draws os)) as H.
    apply submseteq_length in H. rewrite full_deck_length in H.
    unfold cards in H. rewrite length_app in H. lia.
Qed.

(** C4 as stated fails: nothing stops a second [add_cards]. *)
Lemma field_size_counterexample :
  ¬ (∀ g, reachable g → (0 ≤ length (field g) ≤ 15)%nat).
Proof.
  intros H.
  specialize (H (run_ops [AddCards; AddCards] (new_GameRoom 0 []))
                (run_ops_reachable _ _ _)).
  vm_compute in H. destruct H as [_ H]. lia.
Qed.

(** ** The same id three times *)

Lemma is_valid_set_same c : is_valid_set c c c = true.
Proof.
  unfold is_valid_set, check_property. by rewrite !Z.eqb_refl.
Qed.

Lemma list_remove_twice c l l' :
  NoDup (id <$> l) → list_remove c l = Some l' → list_remove c l' = None.
Proof.
  intros Hnd R. destruct (list_remove_filter _ _ _ Hnd R) as [-> _].
  apply list_remove_None. intros [? _]%list_elem_of_filter. done.
Qed.

Lemma pick_set_same_id tok i g :
  NoDup (id <$> field g) → i ∈ id <$> field g →
  pick_set tok [i; i; i] g
  = (Raise ValueError, set_field (filter (λ c, id c ≠ i) (field g)) g).
Proof.
  intros Hnd Hi.
  destruct (get_card_by_id g i) as [c|] eqn:Hc;
    [|by apply get_card_by_id_None in Hc].
  assert (get_card_by_id g <$> [i; i; i] = [Some c; Some c; Some c]) as H3
    by (cbn; by rewrite Hc).
  apply get_card_by_id_Some in Hc as [Hin <-].
  destruct (pick_set tok [id c; id c; id c] g) as [r g'] eqn:E.
  apply pick_set_spec in E.
  destruct E as [s Hbad _|Hbad _|c1 c2 c3 s Hf Hv _|c1 c2 c3 Hf Hv _
                |c1 c2 c3 f3 s Hf _ Hrm _|c1 c2 c3 f3 Hf _ Hrm _
                |c1 c2 c3 f' Hf _ Hrm];
    try (by apply found3_not_rejected in H3);
    rewrite H3 in Hf; simplify_eq.
  - by rewrite is_valid_set_same in Hv.
  - by rewrite is_valid_set_same in Hv.
  - destruct Hrm as (f1 & f2 & R1 & R2 & _).
    by rewrite (list_remove_twice _ _ _ Hnd R1) in R2.
  - destruct Hrm as (f1 & f2 & R1 & R2 & _).
    by rewrite (list_remove_twice _ _ _ Hnd R1) in R2.
  - destruct Hrm as [[R1 _]|(f1 & R1 & R2 & _)].
    + by destruct (list_remove_filter _ _ _ Hnd R1) as [-> _].
    + by rewrite (list_remove_twice _ _ _ Hnd R1) in R2.
Qed.

(** C2 does not hold of the code.  In a room that can be reached, a pick
    that submits three times the id of a card of the field does resolve the
    three slots to that card and finds them a set, but it returns nothing:
    the card is removed from the field once, the second [remove] raises
    [ValueError], and the room stays without the card, the score unchanged,
    no card dealt. *)
Theorem pick_set_same_id_raises tok i g :
  reachable g → i ∈ id <$> field g →
  (∃ c, get_card_by_id g <$> [i; i; i] = [Some c; Some c; Some c]
        ∧ is_valid_set c c c = true)
  ∧ pick_set tok [i; i; i] g
    = (Raise ValueError, set_field (filter (λ c, id c ≠ i) (field g)) g)
  ∧ length (field g) = S (length (filter (λ c, id c ≠ i) (field g))).
Proof.
  intros Hnd%reachable_NoDup_field_ids Hi.
  pose proof (pick_set_same_id tok i g Hnd Hi) as E. split_and!.
  - destruct (get_card_by_id g i) as [c|] eqn:Hc;
      [|by apply get_card_by_id_None in Hc].
    exists c. split; [cbn; by rewrite Hc|apply is_valid_set_same].
  - done.
  - destruct (get_card_by_id g i) as [c|] eqn:Hc;
      [|by apply get_card_by_id_None in Hc].
    apply get_card_by_id_Some in Hc as [Hin <-].
    destruct (list_remove c (field g)) as [f1|] eqn:R1;
      [|by apply list_remove_None in R1].
    destruct (list_remove_filter _ _ _ Hnd R1) as [<- _].
    exact (list_remove_length _ _ _ R1).
Qed.

Lemma pick_set_same_id_raises_witness :
  pick_set alice [0; 0; 0] sample_room
  = (Raise ValueError,
     set_field (filter (λ c, id c ≠ 0) (field sample_room)) sample_room).
Proof.
  apply (pick_set_same_id_raises alice 0 sample_room).
  - apply sample_room_reachable.
  - vm_compute. apply list_elem_of_here.
Defined.

(** Through the request handler: the pick is answered as a failure with the
    message of the exception, and the room kept by the server has lost the
    card. *)
Lemma api_pick_set_same_id :
  let result := api.pick_set sample_token [0; 0; 0] sample_server in
  result.1 = Failure "list.remove(x): x not in list"
  ∧ (length ∘ field <$> games sample_server !! 0) = Some 12%nat
  ∧ (length ∘ field <$> games result.2 !! 0) = Some 11%nat
  ∧ ((λ g, players g !! sample_token) <$> games result.2 !! 0) = Some (Some 0).
Proof. cbn zeta. split_and!; vm_compute; reflexivity. Qed.

(** ** The end of the game *)

Lemma run_ops_reach os g : reachable g → reachable (run_ops os g).
Proof.
  intros Hr. induction os as [|o os IH] using rev_ind; [done|].
  rewrite run_ops_snoc. by constructor.
Qed.

Lemma pick_spec_status tok ids g r g' :
  pick_spec tok ids g r g' →
  status g' = status g
  ∨ status g' = "ended"%string ∧ deck g' = [] ∧ (length (field g') < 3)%nat.
Proof.
  destruct 1 as [| | | |c1 c2 c3 f3 s _ _ _ _| |]; auto.
  set (g1 := set_players _ _).
  destruct (refill_deals g1) as (dealt & Hd%deals_status & _).
  rewrite check_ended_status, check_ended_deck, check_ended_field.
  case_bool_decide; [by right|left]. by rewrite Hd.
Qed.

(** Once ended, always ended. *)
Lemma ended_stays o g :
  status g = "ended"%string → status (run_op o g) = "ended"%string.
Proof.
  intros He. destruct o as [tok ids| |tok]; cbn [run_op].
  - destruct (pick_spec_status _ _ _ _ _ (pick_set_spec' tok ids g))
      as [->|[-> _]]; done.
  - destruct (iter_deal_one_deals 3 g) as (dealt & Hd%deals_status & _).
    by rewrite <- He.
  - unfold add_player. by case_match.
Qed.

(** "ended" is only ever set on an empty deck and a field of fewer than
    three cards, and both stay so. *)
Lemma ended_sound g :
  reachable g → status g = "ended"%string →
  deck g = [] ∧ (length (field g) < 3)%nat.
Proof.
  induction 1 as [gid draws|o g Hr IH].
  - destruct (new_GameRoom_sizes gid draws) as (_ & _ & ->). done.
  - destruct o as [tok ids| |tok]; cbn [run_op].
    + pose proof (pick_set_spec' tok ids g) as E.
      destruct (pick_spec_status _ _ _ _ _ E) as [Hs|[_ ?]]; [|done].
      rewrite Hs. intros [Hd Hf]%IH.
      destruct E as [| | | |c1 c2 c3 f3 s _ _ Hrm%removes3_length _
                    |c1 c2 c3 f3 _ _ Hrm%removes3_length _
                    |c1 c2 c3 f' _ _ Hrm];
        cbn [deck field set_players set_field]; try done; try lia.
      destruct Hrm as [[R1%list_remove_length _]
                      |(f1 & R1%list_remove_length & R2%list_remove_length & _)];
        split; try done; lia.
    + destruct (iter_deal_one_deals 3 g) as (dealt & Hd & Hlen).
      change (Nat.iter 3 deal_one g) with (add_cards g) in Hd.
      rewrite (deals_status _ _ _ Hd). intros [Hdk Hf]%IH.
      pose proof (deals_length _ _ _ Hd) as [Hf' Hdk'].
      rewrite Hdk in Hlen, Hdk'. cbn [length] in *.
      split; [apply length_zero_iff_nil|]; lia.
    + unfold add_player. by case_match.
Qed.

Lemma reachable_no_raise_reachable g : reachable_no_raise g → reachable g.
Proof.
  induction 1 as [gid draws|tok ids g r g' _ IH E|g _ IH|tok g _ IH].
  - constructor.
  - replace g' with (run_op (Pick tok ids) g) by (cbn; by rewrite E).
    by constructor.
  - by apply (reach_op AddCards).
  - by apply (reach_op (AddPlayer tok)).
Qed.

(** While no pick has raised, a non-empty deck goes with a field of at
    least 12 cards, and an empty deck with a field of fewer than 3 cards
    has been noticed. *)
Lemma no_raise_invariant g :
  reachable_no_raise g →
  (deck g ≠ [] → (12 ≤ length (field g))%nat)
  ∧ (deck g = [] → (length (field g) < 3)%nat → status g = "ended"%string).
Proof.
  induction 1 as [gid draws|tok ids g r g' _ [IH1 IH2] E|g _ [IH1 IH2]
                 |tok g _ IH].
  - destruct (new_GameRoom_sizes gid draws) as (Hf & Hd & _).
    split; [lia|]. intros Hnil. rewrite Hnil in Hd. discriminate Hd.
  - apply pick_set_spec in E.
    inversion E as [| |c1 c2 c3 s| |c1 c2 c3 f3 s Hc Hv Hrm Hp| |]; subst;
      [done|done|].
    set (g1 := set_players _ _).
    rewrite check_ended_status, check_ended_deck, check_ended_field.
    split.
    + intros Hne. destruct (refill_done g1); [done|done].
    + intros Hd Hf. by rewrite bool_decide_eq_true_2.
  - destruct (iter_deal_one_deals 3 g) as (dealt & Hd & Hlen).
    change (Nat.iter 3 deal_one g) with (add_cards g) in Hd.
    pose proof (deals_length _ _ _ Hd) as [Hf Hdk].
    rewrite (deals_status _ _ _ Hd).
    destruct (decide (deck g = [])) as [Hnil|Hne].
    + rewrite Hnil in Hlen, Hdk. cbn [length] in *.
      split; [|intros _ ?; apply IH2; [done|lia]].
      intros Hne. destruct (deck (add_cards g)); [done|]. simpl in Hdk. lia.
    + specialize (IH1 Hne). split; intros; lia.
  - unfold add_player. by case_match.
Qed.

(** What C6 asks for does hold as long as no pick has raised. *)
Lemma ended_iff_no_raise g :
  reachable_no_raise g →
  status g = "ended"%string ↔ deck g = [] ∧ (length (field g) < 3)%nat.
Proof.
  intros Hc. split.
  - by apply ended_sound, reachable_no_raise_reachable.
  - intros [? ?]. by apply no_raise_invariant.
Qed.

(** C6 does not hold of the code.  Alice enters a new room and picks 26
    sets, which empties the deck and leaves three cards in the field; she
    then submits the id 0 three times.  The pick raises after removing the
    card once, before the end of the game is looked for: the deck is empty,
    the field holds two cards, and the status is still "ongoing". *)
Theorem status_ongoing_after_raise :
  let g := run_ops (triple_picks ++ [Pick alice [0; 0; 0]]) sample_room in
  reachable g
  ∧ deck g = []
  ∧ length (field g) = 2%nat
  ∧ status g = "ongoing"%string
  ∧ (pick_set alice [0; 0; 0] (run_ops triple_picks sample_room)).1
    = Raise ValueError.
Proof.
  cbn zeta. split.
  - apply run_ops_reach, sample_room_reachable.
  - vm_compute. split_and!; reflexivity.
Qed.

(** ** Entering a room *)

Lemma enter_game_unknown tok gid st :
  games st !! gid = None → enter_game tok gid st = (Ret false, st).
Proof. intros H. unfold enter_game. by rewrite H. Qed.

(** C9.  For a registered token and a room id that is not in the room
    map, [enter_game] returns false and the handler answers "Game not
    found"; the server state is the same afterwards: the user's current
    room and the players of every room are untouched. *)
Theorem enter_room_unknown tok gid st :
  is_Some (users st !! tok) → games st !! gid = None →
  enter_game tok gid st = (Ret false, st)
  ∧ api.enter_room tok gid st = (Failure "Game not found", st).
Proof.
  intros Hu Hg. split; [by apply enter_game_unknown|].
  unfold api.enter_room, handle, py_bind, py_get, verify_token.
  rewrite bool_decide_eq_true_2 by done. cbn [negb].
  by rewrite enter_game_unknown.
Qed.

Lemma enter_room_unknown_witness :
  api.enter_room sample_token 7 sample_server
  = (Failure "Game not found", sample_server).
Proof.
  apply (enter_room_unknown sample_token 7 sample_server).
  - vm_compute. eexists. reflexivity.
  - vm_compute. reflexivity.
Defined.

(** * Further properties of the room *)

(** ** The matching rule does not depend on the order of the cards *)

Lemma check_property_swap12 a b c : check_property a b c = check_property b a c.
Proof.
  unfold check_property.
  destruct (Z.eqb_spec a b), (Z.eqb_spec b a), (Z.eqb_spec b c),
    (Z.eqb_spec a c); simpl; try reflexivity; lia.
Qed.

Lemma check_property_swap23 a b c : check_property a b c = check_property a c b.
Proof.
  unfold check_property.
  destruct (Z.eqb_spec a b), (Z.eqb_spec a c), (Z.eqb_spec b c),
    (Z.eqb_spec c b); simpl; try reflexivity; lia.
Qed.

Lemma is_valid_set_swap12 c1 c2 c3 : is_valid_set c1 c2 c3 = is_valid_set c2 c1 c3.
Proof.
  unfold is_valid_set.
  by rewrite (check_property_swap12 (color c1)), (check_property_swap12 (shape c1)),
    (check_property_swap12 (fill c1)), (check_property_swap12 (count c1)).
Qed.

Lemma is_valid_set_swap23 c1 c2 c3 : is_valid_set c1 c2 c3 = is_valid_set c1 c3 c2.
Proof.
  unfold is_valid_set.
  by rewrite (check_property_swap23 (color c1)), (check_property_swap23 (shape c1)),
    (check_property_swap23 (fill c1)), (check_property_swap23 (count c1)).
Qed.

(** X1.  [is_valid_set] gives the same answer for the three cards in any of
    their six orders. *)
Theorem is_valid_set_any_order c1 c2 c3 :
  is_valid_set c1 c3 c2 = is_valid_set c1 c2 c3
  ∧ is_valid_set c2 c1 c3 = is_valid_set c1 c2 c3
  ∧ is_valid_set c2 c3 c1 = is_valid_set c1 c2 c3
  ∧ is_valid_set c3 c1 c2 = is_valid_set c1 c2 c3
  ∧ is_valid_set c3 c2 c1 = is_valid_set c1 c2 c3.
Proof.
  split_and!.
  - by rewrite <- is_valid_set_swap23.
  - by rewrite <- is_valid_set_swap12.
  - by rewrite (is_valid_set_swap12 c1 c2), (is_valid_set_swap23 c2 c1).
  - by rewrite (is_valid_set_swap23 c1 c2), (is_valid_set_swap12 c1 c3).
  - by rewrite (is_valid_set_swap12 c3 c2), (is_valid_set_swap23 c2 c3),
      (is_valid_set_swap12 c2 c1).
Qed.

(** ** Looking a card up by its id *)

Lemma NoDup_ids_inj (l : list Card) c c' :
  NoDup (id <$> l) → c ∈ l → c' ∈ l → id c = id c' → c = c'.
Proof.
  intros Hnd [i Hi]%list_elem_of_lookup [j Hj]%list_elem_of_lookup Heq.
  assert (i = j) as ->; [|congruence].
  eapply NoDup_lookup; [exact Hnd| |].
  - by rewrite list_lookup_fmap, Hi.
  - by rewrite list_lookup_fmap, Hj, Heq.
Qed.

Lemma get_card_by_id_found g c :
  NoDup (id <$> field g) → c ∈ field g → get_card_by_id g (id c) = Some c.
Proof.
  intros Hnd Hc. destruct (get_card_by_id g (id c)) as [c'|] eqn:E.
  - apply get_card_by_id_Some in E as [Hc' Hid].
    f_equal. by eapply NoDup_ids_inj.
  - apply get_card_by_id_None in E. destruct E. by apply list_elem_of_fmap_2.
Qed.

(** X2.  [get_card_by_id] returns a card of the field that carries the id
    asked for, and [None] exactly when no card of the field carries it; in a
    room that can be reached, asking for the id of a card of the field
    returns that very card. *)
Theorem get_card_by_id_correct g :
  (∀ i c, get_card_by_id g i = Some c → c ∈ field g ∧ id c = i)
  ∧ (∀ i, get_card_by_id g i = None ↔ ∀ c, c ∈ field g → id c ≠ i)
  ∧ (reachable g → ∀ c, c ∈ field g → get_card_by_id g (id c) = Some c).
Proof.
  split_and!.
  - apply get_card_by_id_Some.
  - intros i. rewrite get_card_by_id_None. split.
    + intros Hni c Hc <-. apply Hni. by apply list_elem_of_fmap_2.
    + intros Hall [c [-> Hc]]%list_elem_of_fmap. by eapply Hall.
  - intros Hr c Hc.
    by apply get_card_by_id_found; [apply reachable_NoDup_field_ids|].
Qed.

Lemma get_card_by_id_correct_witness :
  get_card_by_id sample_room (id (mkCard 80 3 3 3 3)) = Some (mkCard 80 3 3 3 3).
Proof.
  apply (proj2 (proj2 (get_card_by_id_correct sample_room))).
  - apply sample_room_reachable.
  - vm_compute. apply list_elem_of_further, list_elem_of_here.
Defined.

(** ** Joining a room *)



(** ** Dealing three more cards *)

(** X4.  [add_cards] pops min(3, size of the deck) cards off the end of
    the deck, one at a time, and appends them to the field in that order; it
    changes neither scores nor status, and on an empty deck it changes
    nothing at all. *)
Theorem add_cards_correct g :
  (∃ dealt,
     deck g = deck (add_cards g) ++ rev dealt
     ∧ field (add_cards g) = field g ++ dealt
     ∧ length dealt = (3 `min` length (deck g))%nat)
  ∧ players (add_cards g) = players g
  ∧ status (add_cards g) = status g
  ∧ game_id (add_cards g) = game_id g
  ∧ (deck g = [] → add_cards g = g).
Proof.
  destruct (iter_deal_one_deals 3 g) as (dealt & Hd & Hlen).
  change (Nat.iter 3 deal_one g) with (add_cards g) in Hd.
  pose proof Hd as [Hdeck Hg]. split_and!.
  - exists dealt. split_and!; [done| |done]. by rewrite Hg at 1.
  - by rewrite Hg at 1.
  - by rewrite Hg at 1.
  - by rewrite Hg at 1.
  - intros Hnil. rewrite Hnil in Hlen. destruct dealt; [|done].
    rewrite Hnil in Hdeck. cbn [rev] in Hdeck. rewrite app_nil_r in Hdeck.
    rewrite Hg. rewrite <- Hdeck. destruct g; cbn in *.
    unfold set_field, set_deck; cbn. rewrite app_nil_r. by subst.
Qed.

Lemma add_cards_correct_witness :
  add_cards (run_ops (triple_picks ++ [Pick alice [0; 1; 2]]) sample_room)
  = run_ops (triple_picks ++ [Pick alice [0; 1; 2]]) sample_room.
Proof.
  apply (add_cards_correct
           (run_ops (triple_picks ++ [Pick alice [0; 1; 2]]) sample_room)).
  vm_compute. reflexivity.
Defined.

(** ** Ids and attributes of the cards in play *)

Lemma full_deck_attributes :
  Forall (λ c, id c = id_of_attributes c
               ∧ (1 ≤ count c ≤ 3) ∧ (1 ≤ shape c ≤ 3)
               ∧ (1 ≤ fill c ≤ 3) ∧ (1 ≤ color c ≤ 3)) full_deck.
Proof.
  assert (forallb (λ c, (id c =? id_of_attributes c)
                        && (1 <=? count c) && (count c <=? 3)
                        && (1 <=? shape c) && (shape c <=? 3)
                        && (1 <=? fill c) && (fill c <=? 3)
                        && (1 <=? color c) && (color c <=? 3)) full_deck = true)
    as H by (vm_compute; reflexivity).
  apply Forall_forall. intros c Hc%list_elem_of_In.
  rewrite forallb_forall in H. specialize (H c Hc).
  rewrite !andb_true_iff, Z.eqb_eq, !Z.leb_le in H. lia.
Qed.

Lemma reachable_card_attributes g c :
  reachable g → c ∈ cards g →
  id c = id_of_attributes c
  ∧ (1 ≤ count c ≤ 3) ∧ (1 ≤ shape c ≤ 3)
  ∧ (1 ≤ fill c ≤ 3) ∧ (1 ≤ color c ≤ 3).
Proof.
  intros Hr Hc. pose proof full_deck_attributes as H.
  rewrite Forall_forall in H. apply H.
  eapply elem_of_submseteq; [done|by apply reachable_cards].
Qed.

Lemma reachable_same_attributes g c c' :
  reachable g → c ∈ cards g → c' ∈ cards g →
  count c = count c' → shape c = shape c' →
  fill c = fill c' → color c = color c' → c = c'.
Proof.
  intros Hr Hc Hc' Hn Hs Hf Hcol.
  eapply NoDup_ids_inj; [by apply reachable_NoDup_ids|done|done|].
  destruct (reachable_card_attributes g c Hr Hc) as [-> _].
  destruct (reachable_card_attributes g c' Hr Hc') as [-> _].
  unfold id_of_attributes. by rewrite Hn, Hs, Hf, Hcol.
Qed.

(** X5.  In a room that can be reached, every card in play has its four
    attributes in 1..3 and the id 27(color-1) + 9(shape-1) + 3(fill-1) +
    (count-1); so two cards in play with the same four attributes are one
    and the same card. *)
Theorem cards_in_play_attributes g :
  reachable g →
  (∀ c, c ∈ cards g →
     id c = id_of_attributes c
     ∧ (1 ≤ count c ≤ 3) ∧ (1 ≤ shape c ≤ 3)
     ∧ (1 ≤ fill c ≤ 3) ∧ (1 ≤ color c ≤ 3))
  ∧ (∀ c c', c ∈ cards g → c' ∈ cards g →
       count c = count c' → shape c = shape c' →
       fill c = fill c' → color c = color c' → c = c').
Proof.
  intros Hr. split.
  - intros c. by apply reachable_card_attributes.
  - intros c c'. by apply reachable_same_attributes.
Qed.

Lemma cards_in_play_attributes_witness :
  id (mkCard 80 3 3 3 3) = id_of_attributes (mkCard 80 3 3 3 3)
  ∧ (1 ≤ count (mkCard 80 3 3 3 3) ≤ 3) ∧ (1 ≤ shape (mkCard 80 3 3 3 3) ≤ 3)
  ∧ (1 ≤ fill (mkCard 80 3 3 3 3) ≤ 3) ∧ (1 ≤ color (mkCard 80 3 3 3 3) ≤ 3).
Proof.
  apply (proj1 (cards_in_play_attributes sample_room sample_room_reachable)).
  unfold cards. apply elem_of_app. right.
  vm_compute. apply list_elem_of_further, list_elem_of_here.
Defined.

(** ** When a pick raises, and what it answers when it does not *)

Lemma check_property_aab a b : check_property a a b = true → a = b.
Proof.
  unfold check_property.
  destruct (Z.eqb_spec a a), (Z.eqb_spec a b); simpl; try done.
Qed.

Lemma is_valid_set_aab c c' :
  is_valid_set c c c' = true →
  count c = count c' ∧ shape c = shape c'
  ∧ fill c = fill c' ∧ color c = color c'.
Proof.
  unfold is_valid_set. rewrite !andb_true_iff.
  intros [[[?%check_property_aab ?%check_property_aab] ?%check_property_aab]
            ?%check_property_aab]. done.
Qed.

Lemma reachable_set_aab g c c' :
  reachable g → c ∈ field g → c' ∈ field g →
  is_valid_set c c c' = true → c = c'.
Proof.
  intros Hr Hc Hc' (? & ? & ? & ?)%is_valid_set_aab.
  eapply (reachable_same_attributes g); try done;
    unfold cards; apply elem_of_app; by right.
Qed.

Lemma found3_cards g ids c1 c2 c3 :
  get_card_by_id g <$> ids = [Some c1; Some c2; Some c3] →
  ids = [id c1; id c2; id c3]
  ∧ c1 ∈ field g ∧ c2 ∈ field g ∧ c3 ∈ field g.
Proof.
  intros H. split; [by eapply found3_ids|].
  destruct ids as [|i1 [|i2 [|i3 [|]]]]; try done. cbn in H. simplify_eq.
  repeat match goal with
         | H : get_card_by_id _ _ = Some _ |- _ =>
             apply get_card_by_id_Some in H as [? _]
         end.
  done.
Qed.

Lemma remove_fails_same g c1 c2 c3 f' :
  reachable g →
  c1 ∈ field g → c2 ∈ field g → c3 ∈ field g →
  is_valid_set c1 c2 c3 = true →
  list_remove c1 (field g) = Some f' ∧ list_remove c2 f' = None
  ∨ (∃ f1, list_remove c1 (field g) = Some f1
           ∧ list_remove c2 f1 = Some f' ∧ list_remove c3 f' = None) →
  c2 = c1 ∧ c3 = c1.
Proof.
  intros Hr H1 H2 H3 Hv Hrm.
  pose proof (reachable_NoDup_field_ids g Hr) as Hnd.
  assert (∀ c c', c ∈ field g → c' ∈ field g → id c = id c' → c = c') as Hinj
    by (intros c c'; by apply NoDup_ids_inj).
  destruct Hrm as [[R1 R2]|(f1 & R1 & R2 & R3)].
  - destruct (list_remove_filter _ _ _ Hnd R1) as [-> _].
    apply list_remove_None in R2.
    assert (c2 = c1) as ->.
    { apply Hinj; [done|done|].
      destruct (decide (id c2 = id c1)) as [|Hne]; [done|].
      destruct R2. by apply list_elem_of_filter. }
    split; [done|]. symmetry. by eapply reachable_set_aab.
  - destruct (list_remove_filter _ _ _ Hnd R1) as [-> _].
    pose proof (filter_ids_NoDup (λ x, id x ≠ id c1) _ Hnd) as Hnd1.
    destruct (list_remove_filter _ _ _ Hnd1 R2) as [-> [H21 _]%list_elem_of_filter].
    apply list_remove_None in R3.
    destruct (decide (id c3 = id c1)) as [E1|Hne1].
    + apply Hinj in E1 as ->; [|done|done].
      rewrite is_valid_set_swap23 in Hv.
      apply (reachable_set_aab g) in Hv; [|done..]. by subst.
    + destruct (decide (id c3 = id c2)) as [E2|Hne2].
      * apply Hinj in E2 as ->; [|done|done].
        rewrite is_valid_set_swap12, is_valid_set_swap23 in Hv.
        apply (reachable_set_aab g) in Hv; [|done..]. by subst.
      * destruct R3. by rewrite !list_elem_of_filter.
Qed.

Lemma pick_spec_raise_same tok ids g g' :
  reachable g → pick_spec tok ids g (Raise ValueError) g' →
  ∃ i, ids = [i; i; i] ∧ i ∈ id <$> field g.
Proof.
  intros Hr E.
  inversion E as [| | | | | |c1 c2 c3 f' Hf Hv Hrm]; subst.
  apply found3_cards in Hf as (-> & H1 & H2 & H3).
  destruct (remove_fails_same g c1 c2 c3 f' Hr H1 H2 H3 Hv Hrm) as [-> ->].
  exists (id c1). split; [done|]. by apply list_elem_of_fmap_2.
Qed.

Lemma pick_set_raise_cases tok ids g s :
  reachable g → players g !! tok = Some s →
  (∃ e, (pick_set tok ids g).1 = Raise e)
  ↔ ∃ i, ids = [i; i; i] ∧ i ∈ id <$> field g.
Proof.
  intros Hr Hp. split.
  - intros [e He]. destruct (pick_set tok ids g) as [r g'] eqn:E.
    cbn in He. subst r. apply pick_set_spec in E.
    assert (e = ValueError) as -> by (inversion E; congruence).
    by eapply pick_spec_raise_same.
  - intros (i & -> & Hi). exists ValueError.
    rewrite pick_set_same_id; [done| |done].
    by apply reachable_NoDup_field_ids.
Qed.

(** X6.  In a room that can be reached, a pick by a joined token raises
    exactly when it submits three times one and the same id of a card of the
    field; every other pick returns. *)
Theorem pick_set_raises_iff tok ids g s :
  reachable g → players g !! tok = Some s →
  (∃ e, (pick_set tok ids g).1 = Raise e)
  ↔ ∃ i, ids = [i; i; i] ∧ i ∈ id <$> field g.
Proof. apply pick_set_raise_cases. Qed.

Lemma pick_set_raises_iff_witness :
  (∃ e, (pick_set alice [70; 70; 70] sample_room).1 = Raise e)
  ↔ ∃ i, [70; 70; 70] = [i; i; i] ∧ i ∈ id <$> field sample_room.
Proof.
  apply (pick_set_raises_iff alice [70; 70; 70] sample_room 0).
  - apply sample_room_reachable.
  - apply sample_room_alice.
Defined.

(** X7.  In a room that can be reached, a pick by a joined token of three
    different ids of cards of the field returns what [is_valid_set] says of
    the three cards, with the score one higher for a set and one lower
    otherwise. *)
Theorem pick_set_answer tok g s i1 i2 i3 c1 c2 c3 :
  reachable g → players g !! tok = Some s →
  NoDup [i1; i2; i3] →
  get_card_by_id g i1 = Some c1 →
  get_card_by_id g i2 = Some c2 →
  get_card_by_id g i3 = Some c3 →
  (pick_set tok [i1; i2; i3] g).1
  = Ret (is_valid_set c1 c2 c3,
         if is_valid_set c1 c2 c3 then s + 1 else s - 1).
Proof.
  intros Hr Hp Hnd E1 E2 E3.
  assert (get_card_by_id g <$> [i1; i2; i3] = [Some c1; Some c2; Some c3])
    as H3 by (cbn; by rewrite E1, E2, E3).
  destruct (pick_set tok [i1; i2; i3] g) as [r g'] eqn:E.
  apply pick_set_spec in E. cbn [fst].
  destruct E as [s' Hbad _|Hbad _|d1 d2 d3 s' Hf Hv Hp'|d1 d2 d3 Hf Hv Hp'
                |d1 d2 d3 f3 s' Hf Hv Hrm Hp'|d1 d2 d3 f3 Hf Hv Hrm Hp'
                |d1 d2 d3 f' Hf Hv Hrm];
    try (by apply found3_not_rejected in H3); try congruence.
  - rewrite H3 in Hf. simplify_eq. by rewrite Hv.
  - rewrite H3 in Hf. simplify_eq. by rewrite Hv.
  - exfalso.
    assert (pick_spec tok [i1; i2; i3] g (Raise ValueError) (set_field f' g))
      as E by by eapply pick_hit_remove_fails.
    apply pick_spec_raise_same in E as (i & ? & _); [|done]. simplify_eq.
    apply NoDup_cons in Hnd as [Hni _]. apply Hni. by left.
Qed.

Lemma pick_set_answer_witness :
  (pick_set alice [78; 79; 80] sample_room).1 = Ret (true, 1).
Proof.
  apply (pick_set_answer alice sample_room 0 78 79 80
           (mkCard 78 1 3 3 3) (mkCard 79 2 3 3 3) (mkCard 80 3 3 3 3)).
  - apply sample_room_reachable.
  - apply sample_room_alice.
  - vm_compute. repeat constructor; intros H;
      repeat (apply elem_of_cons in H as [H|H]; [discriminate H|]);
      by apply elem_of_nil in H.
  - vm_compute. reflexivity.
  - vm_compute. reflexivity.
  - vm_compute. reflexivity.
Defined.

(** ** A pick by a token that has not joined *)

(** X8.  A pick by a token that is not among the players of the room never
    returns: it raises [KeyError] (or [ValueError], from the removal loop).
    Scores, deck and status are left as they were and a rejected pick leaves
    the whole room as it was, but cards found to be a set have already been
    removed from the field when the score lookup raises. *)
Theorem pick_set_unjoined tok ids g :
  players g !! tok = None →
  ((pick_set tok ids g).1 = Raise (KeyError tok)
   ∨ (pick_set tok ids g).1 = Raise ValueError)
  ∧ players (pick_set tok ids g).2 = players g
  ∧ deck (pick_set tok ids g).2 = deck g
  ∧ status (pick_set tok ids g).2 = status g
  ∧ field (pick_set tok ids g).2 `sublist_of` field g
  ∧ (rejected ids g → (pick_set tok ids g).2 = g)
  ∧ (∀ c1 c2 c3 f3,
       get_card_by_id g <$> ids = [Some c1; Some c2; Some c3] →
       is_valid_set c1 c2 c3 = true →
       removes3 c1 c2 c3 (field g) f3 →
       pick_set tok ids g = (Raise (KeyError tok), set_field f3 g)).
Proof.
  intros Hp. destruct (pick_set tok ids g) as [r g'] eqn:E.
  apply pick_set_spec in E. cbn [fst snd].
  destruct E as [s' Hbad Hp'|Hbad _|d1 d2 d3 s' Hf Hv Hp'|d1 d2 d3 Hf Hv Hp'
                |d1 d2 d3 f3 s' Hf Hv Hrm Hp'|d1 d2 d3 f3 Hf Hv Hrm Hp'
                |d1 d2 d3 f' Hf Hv Hrm];
    try congruence; cbn [players deck status field set_field].
  - split_and!; [by left|done|done|done|done|done|].
    intros c1 c2 c3 f3 Hf. by destruct (found3_not_rejected _ _ _ _ _ Hf).
  - split_and!; [by left|done|done|done|done|done|].
    intros c1 c2 c3 f3 Hf'. rewrite Hf in Hf'. simplify_eq. congruence.
  - split_and!; [by left|done|done|done| | |].
    + by eapply removes3_sublist.
    + intros Hbad. by destruct (found3_not_rejected _ _ _ _ _ Hf).
    + intros c1 c2 c3 f3' Hf' _ (f1' & f2' & R1' & R2' & R3').
      rewrite Hf in Hf'. simplify_eq.
      destruct Hrm as (f1 & f2 & R1 & R2 & R3). congruence.
  - split_and!; [by right|done|done|done| | |].
    + destruct Hrm as [[R1 _]|(f1 & R1 & R2 & _)].
      * by eapply list_remove_sublist.
      * etrans; by eapply list_remove_sublist.
    + intros Hbad. by destruct (found3_not_rejected _ _ _ _ _ Hf).
    + intros c1 c2 c3 f3' Hf' _ (f1' & f2' & R1' & R2' & R3').
      rewrite Hf in Hf'. simplify_eq.
      destruct Hrm as [[R1 R2]|(f1 & R1 & R2 & R3)]; congruence.
Qed.

Lemma pick_set_unjoined_witness :
  players (pick_set "bob" [78; 79; 80] sample_room).2 = players sample_room.
Proof.
  apply (pick_set_unjoined "bob" [78; 79; 80] sample_room).
  vm_compute. reflexivity.
Defined.

(** ** Cards only move forward *)

Lemma pick_spec_moves tok ids g r g' :
  pick_spec tok ids g r g' →
  ∃ kept dealt,
    kept `sublist_of` field g
    ∧ field g' = kept ++ dealt
    ∧ deck g = deck g' ++ rev dealt.
Proof.
  assert (∀ f', f' `sublist_of` field g →
            ∃ kept dealt, kept `sublist_of` field g
              ∧ f' = kept ++ dealt ∧ deck g = deck g ++ rev dealt) as Hdrop.
  { intros f' Hf'. exists f', []. by rewrite !app_nil_r. }
  destruct 1 as [| | | |c1 c2 c3 f3 s _ _ Hrm _|c1 c2 c3 f3 _ _ Hrm _
                |c1 c2 c3 f' _ _ Hrm];
    cbn [field deck set_players set_field]; try by apply Hdrop.
  - set (g1 := set_players _ _).
    destruct (refill_deals g1) as (dealt & [Hdeck Hg] & _).
    exists f3, dealt. rewrite check_ended_field, check_ended_deck.
    split_and!; [by eapply removes3_sublist| |done]. by rewrite Hg at 1.
  - apply Hdrop. by eapply removes3_sublist.
  - apply Hdrop. destruct Hrm as [[R1 _]|(f1 & R1 & R2 & _)].
    + by eapply list_remove_sublist.
    + etrans; by eapply list_remove_sublist.
Qed.

(** X9.  Whatever the operation and its outcome, the field afterwards is
    made of cards kept from the old field, in their old order, followed by
    cards popped off the end of the deck; the deck only loses those cards.
    No operation creates a card, returns one to the deck or brings a removed
    card back. *)
Theorem cards_only_move_forward o g :
  ∃ kept dealt,
    kept `sublist_of` field g
    ∧ field (run_op o g) = kept ++ dealt
    ∧ deck g = deck (run_op o g) ++ rev dealt.
Proof.
  destruct o as [tok ids| |tok]; cbn [run_op].
  - eapply pick_spec_moves, pick_set_spec'.
  - destruct (iter_deal_one_deals 3 g) as (dealt & [Hdeck Hg] & _).
    change (Nat.iter 3 deal_one g) with (add_cards g) in *.
    exists (field g), dealt. split_and!; [done| |done]. by rewrite Hg at 1.
  - exists (field g), []. unfold add_player.
    case_match; cbn [field deck set_players]; by rewrite !app_nil_r.
Qed.

(** ** The status *)

Lemma reachable_status g :
  reachable g → status g = "ongoing"%string ∨ status g = "ended"%string.
Proof.
  induction 1 as [gid draws|o g _ IH].
  - left. apply new_GameRoom_sizes.
  - destruct o as [tok ids| |tok]; cbn [run_op].
    + destruct (pick_spec_status _ _ _ _ _ (pick_set_spec' tok ids g))
        as [->|[-> _]]; auto.
    + destruct (iter_deal_one_deals 3 g) as (dealt & Hd%deals_status & _).
      change (Nat.iter 3 deal_one g) with (add_cards g) in *. by rewrite Hd.
    + unfold add_player. by case_match.
Qed.

(** X10.  In a room that can be reached the status is "ongoing" or
    "ended", and it is "ended" only with an empty deck and fewer than three
    cards in the field; an ended room stays ended under every operation. *)
Theorem status_ended_final g :
  reachable g →
  (status g = "ongoing"%string ∨ status g = "ended"%string)
  ∧ (status g = "ended"%string →
       deck g = [] ∧ (length (field g) < 3)%nat
       ∧ ∀ o, status (run_op o g) = "ended"%string).
Proof.
  intros Hr. split; [by apply reachable_status|].
  intros He. destruct (ended_sound g Hr He) as [? ?].
  split_and!; [done|done|]. intros o. by apply ended_stays.
Qed.

Lemma status_ended_final_witness :
  status (run_op AddCards
            (run_ops (triple_picks ++ [Pick alice [0; 1; 2]]) sample_room))
  = "ended"%string.
Proof.
  apply (status_ended_final
           (run_ops (triple_picks ++ [Pick alice [0; 1; 2]]) sample_room)).
  - apply run_ops_reach, sample_room_reachable.
  - vm_compute. reflexivity.
Defined.

Lemma sample_room_no_raise : reachable_no_raise sample_room.
Proof. rewrite sample_room_eq. apply clean_add_player, clean_new. Qed.

(** X11.  As long as no pick has raised, a room keeps at least 12 cards in
    the field while the deck is not empty, and its status is "ended" exactly
    when the deck is empty and the field holds fewer than three cards. *)
Theorem no_raise_status g :
  reachable_no_raise g →
  (deck g ≠ [] → (12 ≤ length (field g))%nat)
  ∧ (status g = "ended"%string
     ↔ deck g = [] ∧ (length (field g) < 3)%nat).
Proof.
  intros Hc. split.
  - by apply no_raise_invariant.
  - by apply ended_iff_no_raise.
Qed.

Lemma no_raise_status_witness : (12 ≤ length (field sample_room))%nat.
Proof.
  apply (no_raise_status sample_room sample_room_no_raise).
  vm_compute. discriminate.
Defined.

(** * Properties of the server *)

(** ** The handlers, case by case *)

Lemma verify_token_true tok st u :
  users st !! tok = Some u → verify_token tok st = true.
Proof. intros H. unfold verify_token. apply bool_decide_eq_true_2. eauto. Qed.

Lemma verify_token_false tok st :
  users st !! tok = None → verify_token tok st = false.
Proof.
  intros H. unfold verify_token. apply bool_decide_eq_false_2.
  rewrite H. by intros [? ?].
Qed.

Lemma get_user_game_eq tok st u :
  users st !! tok = Some u →
  get_user_game tok st
  = (Ret (gid ← current_game_id u; (λ room, (gid, room)) <$> games st !! gid), st).
Proof.
  intros H. unfold get_user_game. rewrite H. by destruct (current_game_id u).
Qed.

Lemma current_room_eq tok st u :
  users st !! tok = Some u →
  current_room tok st = (gid ← current_game_id u; games st !! gid).
Proof. intros H. unfold current_room. by rewrite H. Qed.

Lemma api_create_room_eq tok draws st u :
  users st !! tok = Some u →
  api.create_room tok draws st
  = (Success (next_game_id st),
     mkServerState (users st)
       (<[next_game_id st := new_GameRoom (next_game_id st) draws]> (games st))
       (next_game_id st + 1)).
Proof.
  intros H. unfold api.create_room, handle, py_bind, py_get.
  rewrite (verify_token_true _ _ _ H). reflexivity.
Qed.

Lemma api_enter_room_eq tok gid st u room :
  users st !! tok = Some u → games st !! gid = Some room →
  api.enter_room tok gid st
  = (Success gid,
     mkServerState
       (<[tok := mkUser (nickname u) (password u) (Some gid)]> (users st))
       (<[gid := add_player tok room]> (games st))
       (next_game_id st)).
Proof.
  intros Hu Hg. unfold api.enter_room, handle, py_bind, py_get.
  rewrite (verify_token_true _ _ _ Hu). cbn [negb].
  unfold enter_game. rewrite Hg, Hu. reflexivity.
Qed.

(** A call of a room method through a handler, for a user who is in a
    room. *)
Lemma api_pick_set_eq tok ids st u gid room :
  users st !! tok = Some u → current_game_id u = Some gid →
  games st !! gid = Some room →
  api.pick_set tok ids st
  = (match (pick_set tok ids room).1 with
     | Ret r => Success r
     | Raise e => Failure (exn_message e)
     end,
     mkServerState (users st)
       (<[gid := run_op (Pick tok ids) room]> (games st)) (next_game_id st)).
Proof.
  intros Hu Hc Hg. unfold api.pick_set, handle, py_bind, py_get.
  rewrite (verify_token_true _ _ _ Hu). cbn [negb].
  rewrite (get_user_game_eq _ _ _ Hu), Hc. cbn [mbind option_bind].
  rewrite Hg. cbn [fmap option_fmap option_map]. unfold with_room, py_ret.
  cbn [fst snd run_op].
  by destruct (pick_set tok ids room) as [[r|e] room'].
Qed.

Lemma api_add_cards_eq tok st u gid room :
  users st !! tok = Some u → current_game_id u = Some gid →
  games st !! gid = Some room →
  api.add_cards tok st
  = (Success tt,
     mkServerState (users st)
       (<[gid := run_op AddCards room]> (games st)) (next_game_id st)).
Proof.
  intros Hu Hc Hg. unfold api.add_cards, handle, py_bind, py_get.
  rewrite (verify_token_true _ _ _ Hu). cbn [negb].
  rewrite (get_user_game_eq _ _ _ Hu), Hc. cbn [mbind option_bind].
  rewrite Hg. reflexivity.
Qed.

Lemma api_get_field_eq tok st u gid room :
  users st !! tok = Some u → current_game_id u = Some gid →
  games st !! gid = Some room →
  api.get_field tok st
  = (Success (field room, status room, default 0 (players room !! tok)), st).
Proof.
  intros Hu Hc Hg. unfold api.get_field, handle, py_bind, py_get.
  rewrite (verify_token_true _ _ _ Hu). cbn [negb].
  rewrite (get_user_game_eq _ _ _ Hu), Hc. cbn [mbind option_bind].
  rewrite Hg. reflexivity.
Qed.

Lemma api_no_room tok st u :
  users st !! tok = Some u → current_room tok st = None →
  (∀ ids, api.pick_set tok ids st = (Failure "User is not in a game", st))
  ∧ api.add_cards tok st = (Failure "User is not in a game", st)
  ∧ api.get_field tok st = (Failure "User is not in a game", st)
  ∧ (∀ items,
       api.get_scores tok items st = (Failure "User is not in a game", st)).
Proof.
  intros Hu Hc. rewrite (current_room_eq _ _ _ Hu) in Hc.
  assert (get_user_game tok st = (Ret None, st)) as Hget.
  { rewrite (get_user_game_eq _ _ _ Hu).
    destruct (current_game_id u) as [gid|]; [|done]. cbn in *. by rewrite Hc. }
  unfold api.pick_set, api.add_cards, api.get_field, api.get_scores,
    handle, py_bind, py_get.
  rewrite (verify_token_true _ _ _ Hu). cbn [negb]. rewrite Hget.
  by split_and!.
Qed.

Lemma api_invalid_token tok st :
  users st !! tok = None →
  (∀ draws, api.create_room tok draws st = (Failure "Invalid access token", st))
  ∧ (∀ gid, api.enter_room tok gid st = (Failure "Invalid access token", st))
  ∧ (∀ ids, api.pick_set tok ids st = (Failure "Invalid access token", st))
  ∧ api.add_cards tok st = (Failure "Invalid access token", st)
  ∧ api.get_field tok st = (Failure "Invalid access token", st)
  ∧ (∀ items,
       api.get_scores tok items st = (Failure "Invalid access token", st)).
Proof.
  intros Hu.
  unfold api.create_room, api.enter_room, api.pick_set, api.add_cards,
    api.get_field, api.get_scores, handle, py_bind, py_get.
  rewrite (verify_token_false _ _ Hu). by split_and!.
Qed.

Lemma api_register_eq nick pass draws st :
  api.register nick pass draws st
  = (Success (nick, _generate_token draws),
     mkServerState
       (<[_generate_token draws := mkUser nick pass None]> (users st))
       (games st) (next_game_id st)).
Proof. reflexivity. Qed.

Lemma scores_loop_state items out st : (scores_loop items out st).2 = st.
Proof.
  revert out. induction items as [|[token score] rest IH]; intros out; [done|].
  cbn [scores_loop]. destruct (users st !! token); [apply IH|done].
Qed.

Lemma api_read_only tok st :
  (api.get_field tok st).2 = st
  ∧ ∀ items, (api.get_scores tok items st).2 = st.
Proof.
  destruct (users st !! tok) as [u|] eqn:Hu.
  2:{ destruct (api_invalid_token tok st Hu) as (_ & _ & _ & _ & -> & Hs).
      split; [done|]. intros items. by rewrite Hs. }
  destruct (current_room tok st) as [room|] eqn:Hc.
  2:{ destruct (api_no_room tok st u Hu Hc) as (_ & _ & -> & Hs).
      split; [done|]. intros items. by rewrite Hs. }
  rewrite (current_room_eq _ _ _ Hu) in Hc.
  destruct (current_game_id u) as [gid|] eqn:Hg; [|done]. cbn in Hc.
  split; [by rewrite (api_get_field_eq _ _ _ _ _ Hu Hg Hc)|].
  intros items. unfold api.get_scores, handle, py_bind, py_get.
  rewrite (verify_token_true _ _ _ Hu). cbn [negb].
  rewrite (get_user_game_eq _ _ _ Hu), Hg. cbn [mbind option_bind].
  rewrite Hc. cbn [fmap option_fmap option_map].
  pose proof (scores_loop_state items [] st) as Hl.
  destruct (scores_loop items [] st) as [[l|e] st']; cbn in *; by subst.
Qed.

(** Every request leaves the state alone, or registers a user, or adds a
    new room, or moves a user into a room, or runs a pick or [add_cards]
    on the room a user is in. *)
Lemma serve_cases r st :
  serve r st = st
  ∨ (∃ tok u',
       current_game_id u' = None
       ∧ serve r st
         = mkServerState (<[tok := u']> (users st)) (games st) (next_game_id st))
  ∨ (∃ draws,
       serve r st
       = mkServerState (users st)
           (<[next_game_id st := new_GameRoom (next_game_id st) draws]> (games st))
           (next_game_id st + 1))
  ∨ (∃ tok u gid room,
       users st !! tok = Some u ∧ games st !! gid = Some room
       ∧ serve r st
         = mkServerState
             (<[tok := mkUser (nickname u) (password u) (Some gid)]> (users st))
             (<[gid := add_player tok room]> (games st)) (next_game_id st))
  ∨ (∃ tok u gid room o,
       users st !! tok = Some u ∧ current_game_id u = Some gid
       ∧ games st !! gid = Some room
       ∧ (o = AddCards ∨ ∃ ids, o = Pick tok ids)
       ∧ serve r st
         = mkServerState (users st) (<[gid := run_op o room]> (games st))
             (next_game_id st)).
Proof.
  destruct r as [nick pass draws|tok draws|tok gid|tok|tok ids|tok|tok items];
    cbn [serve].
  - right; left. rewrite api_register_eq. cbn [snd].
    by exists (_generate_token draws), (mkUser nick pass None).
  - destruct (users st !! tok) as [u|] eqn:Hu.
    + right; right; left. rewrite (api_create_room_eq _ _ _ _ Hu).
      cbn [snd]. by eexists.
    + left. by destruct (api_invalid_token tok st Hu) as (-> & _).
  - destruct (users st !! tok) as [u|] eqn:Hu.
    + destruct (games st !! gid) as [room|] eqn:Hg.
      * do 3 right; left. rewrite (api_enter_room_eq _ _ _ _ _ Hu Hg).
        cbn [snd]. by exists tok, u, gid, room.
      * left. unfold api.enter_room, handle, py_bind, py_get.
        rewrite (verify_token_true _ _ _ Hu). cbn [negb].
        by rewrite enter_game_unknown.
    + left. by destruct (api_invalid_token tok st Hu) as (_ & -> & _).
  - left. apply api_read_only.
  - destruct (users st !! tok) as [u|] eqn:Hu.
    + destruct (current_room tok st) as [room|] eqn:Hc.
      * rewrite (current_room_eq _ _ _ Hu) in Hc.
        destruct (current_game_id u) as [gid|] eqn:Hg; [|done]. cbn in Hc.
        do 4 right. rewrite (api_pick_set_eq _ _ _ _ _ _ Hu Hg Hc).
        cbn [snd]. exists tok, u, gid, room, (Pick tok ids).
        split_and!; [done|done|done|right; by eexists|done].
      * left. by destruct (api_no_room tok st u Hu Hc) as (-> & _).
    + left. by destruct (api_invalid_token tok st Hu) as (_ & _ & -> & _).
  - destruct (users st !! tok) as [u|] eqn:Hu.
    + destruct (current_room tok st) as [room|] eqn:Hc.
      * rewrite (current_room_eq _ _ _ Hu) in Hc.
        destruct (current_game_id u) as [gid|] eqn:Hg; [|done]. cbn in Hc.
        do 4 right. rewrite (api_add_cards_eq _ _ _ _ _ Hu Hg Hc).
        cbn [snd]. exists tok, u, gid, room, AddCards.
        split_and!; [done|done|done|by left|done].
      * left. by destruct (api_no_room tok st u Hu Hc) as (_ & -> & _).
    + left. by destruct (api_invalid_token tok st Hu) as (_ & _ & _ & -> & _).
  - left. apply api_read_only.
Qed.

(** ** What every reachable server state satisfies *)

Lemma check_ended_game_id g : game_id (check_ended g) = game_id g.
Proof. unfold check_ended. by repeat case_match. Qed.

Lemma deals_game_id dealt g g' : deals dealt g g' → game_id g' = game_id g.
Proof. by intros [_ ->]. Qed.

Lemma pick_spec_frame tok ids g r g' :
  pick_spec tok ids g r g' →
  game_id g' = game_id g
  ∧ ∀ t, is_Some (players g' !! t) ↔ is_Some (players g !! t).
Proof.
  assert (∀ (s v : Z) t, players g !! tok = Some s →
            is_Some (<[tok := v]> (players g) !! t) ↔ is_Some (players g !! t))
    as Hins.
  { intros s v t Hp. rewrite lookup_insert_is_Some.
    split; [intros [<-|[_ ?]]; eauto|]. intros ?.
    destruct (decide (tok = t)); auto. }
  destruct 1 as [| |c1 c2 c3 s _ _ Hp| |c1 c2 c3 f3 s _ _ _ Hp| |];
    cbn [game_id players set_players set_field]; try done.
  - split; [done|]. intros t. by eapply Hins.
  - set (g1 := set_players _ _).
    destruct (refill_deals g1) as (dealt & Hd & _).
    rewrite check_ended_game_id, check_ended_players.
    rewrite (deals_game_id _ _ _ Hd), (deals_players _ _ _ Hd).
    split; [done|]. intros t. by eapply Hins.
Qed.

Lemma run_op_game_id o g : game_id (run_op o g) = game_id g.
Proof.
  destruct o as [tok ids| |tok]; cbn [run_op].
  - eapply pick_spec_frame, pick_set_spec'.
  - destruct (iter_deal_one_deals 3 g) as (dealt & Hd & _).
    by eapply deals_game_id.
  - unfold add_player. by case_match.
Qed.

Lemma run_op_players_kept o g t :
  (o = AddCards ∨ ∃ tok ids, o = Pick tok ids) →
  is_Some (players (run_op o g) !! t) ↔ is_Some (players g !! t).
Proof.
  intros [->|(tok & ids & ->)]; cbn [run_op].
  - by rewrite add_cards_players.
  - eapply pick_spec_frame, pick_set_spec'.
Qed.

Lemma new_GameRoom_empty gid draws :
  game_id (new_GameRoom gid draws) = gid ∧ players (new_GameRoom gid draws) = ∅.
Proof.
  destruct (new_GameRoom_deals gid draws) as (dealt & Hd & _).
  by rewrite (deals_game_id _ _ _ Hd), (deals_players _ _ _ Hd).
Qed.

Lemma add_player_players tok g t :
  is_Some (players (add_player tok g) !! t)
  ↔ t = tok ∨ is_Some (players g !! t).
Proof.
  unfold add_player. destruct (players g !! tok) as [s|] eqn:E.
  - split; [by right|]. intros [->|?]; [by rewrite E|done].
  - cbn [players set_players]. rewrite lookup_insert_is_Some.
    split; [intros [<-|[_ ?]]; auto|].
    intros [->|?]; [by left|]. destruct (decide (tok = t)); auto.
Qed.

Lemma next_game_id_nonneg st : reachable_server st → 0 ≤ next_game_id st.
Proof.
  induction 1 as [|r st _ IH]; [done|].
  destruct (serve_cases r st)
    as [->|[(? & ? & _ & ->)|[(? & ->)|[(? & ? & ? & ? & _ & _ & ->)
       |(? & ? & ? & ? & ? & _ & _ & _ & _ & ->)]]]]; cbn; lia.
Qed.

Lemma server_ok_new : server_ok new_ServerState.
Proof.
  unfold server_ok, new_ServerState; cbn. split_and!.
  - intros gid room H. by rewrite lookup_empty in H.
  - intros tok u gid H. by rewrite lookup_empty in H.
  - intros gid room tok H. by rewrite lookup_empty in H.
Qed.

Lemma server_ok_serve r st :
  0 ≤ next_game_id st → server_ok st → server_ok (serve r st).
Proof.
  intros Hnext (Ha & Hb & Hc).
  destruct (serve_cases r st)
    as [->|[(tok & u' & Hnone & ->)|[(draws & ->)
       |[(tok & u & gid & room & Hu & Hg & ->)
       |(tok & u & gid & room & o & Hu & Hcur & Hg & Ho & ->)]]]];
    [done|..]; unfold server_ok; cbn [users games next_game_id].
  - (* a user is registered *)
    split_and!; [done| |].
    + intros t v g. rewrite lookup_insert. case_decide; [|by apply Hb].
      intros ?; simplify_eq. congruence.
    + intros g rm t Hrm Ht. rewrite lookup_insert_is_Some.
      destruct (decide (tok = t)); [by left|right]. split; [done|]. eauto.
  - (* a room is created *)
    split_and!.
    + intros g rm. rewrite lookup_insert. case_decide.
      * intros <-%(inj Some). subst g.
        destruct (new_GameRoom_empty (next_game_id st) draws) as [? _].
        split_and!; [lia|lia|constructor|done].
      * intros Hrm. destruct (Ha _ _ Hrm) as (? & ? & ?).
        split_and!; [lia|lia|done|done].
    + intros t v g Ht Hv. destruct (Hb _ _ _ Ht Hv) as (rm & Hrm & Hp).
      exists rm. split; [|done]. rewrite lookup_insert_ne; [done|].
      destruct (Ha _ _ Hrm). lia.
    + intros g rm t. rewrite lookup_insert. case_decide.
      * intros <-%(inj Some).
        destruct (new_GameRoom_empty (next_game_id st) draws) as [_ ->].
        rewrite lookup_empty. by intros [? ?].
      * apply Hc.
  - (* a user enters a room *)
    split_and!.
    + intros g rm. rewrite lookup_insert. case_decide; [|by apply Ha].
      intros <-%(inj Some). subst g. destruct (Ha _ _ Hg) as (? & ? & ?).
      split_and!; [lia|lia|by apply (reach_op (AddPlayer tok))|].
      etrans; [apply (run_op_game_id (AddPlayer tok))|done].
    + intros t v g. rewrite lookup_insert. case_decide.
      * intros ? ?; simplify_eq. cbn in *. simplify_eq.
        exists (add_player t room). rewrite lookup_insert_eq.
        split; [done|]. apply add_player_players. by left.
      * intros Ht Hv. destruct (Hb _ _ _ Ht Hv) as (rm & Hrm & Hp).
        destruct (decide (gid = g)) as [->|Hne].
        -- exists (add_player tok room). rewrite lookup_insert_eq.
           split; [done|]. apply add_player_players. right. congruence.
        -- exists rm. by rewrite lookup_insert_ne.
    + intros g rm t. rewrite lookup_insert, lookup_insert_is_Some.
      case_decide.
      * intros <-%(inj Some). intros [->|Hp]%add_player_players; [by left|].
        destruct (decide (tok = t)); [by left|right]. split; [done|]. eauto.
      * intros Hrm Hp.
        destruct (decide (tok = t)); [by left|right]. split; [done|]. eauto.
  - (* a pick or [add_cards] on the user's room *)
    assert (o = AddCards ∨ ∃ tok ids, o = Pick tok ids) as Ho'
      by (destruct Ho as [|[? ?]]; eauto).
    split_and!.
    + intros g rm. rewrite lookup_insert. case_decide; [|by apply Ha].
      intros <-%(inj Some). subst g. destruct (Ha _ _ Hg) as (? & ? & ?).
      split_and!; [lia|lia|by constructor|by rewrite run_op_game_id].
    + intros t v g Ht Hv. destruct (Hb _ _ _ Ht Hv) as (rm & Hrm & Hp).
      destruct (decide (gid = g)) as [->|Hne].
      * exists (run_op o room). rewrite lookup_insert_eq. split; [done|].
        apply run_op_players_kept; [done|]. congruence.
      * exists rm. by rewrite lookup_insert_ne.
    + intros g rm t. rewrite lookup_insert. case_decide; [|by apply Hc].
      intros <-%(inj Some). subst g. intros Hp%run_op_players_kept; [|done]. eauto.
Qed.

Lemma reachable_server_ok st : reachable_server st → server_ok st.
Proof.
  induction 1 as [|r st Hr IH]; [apply server_ok_new|].
  by apply server_ok_serve; [apply next_game_id_nonneg|].
Qed.

(** ** Registering *)

(** X12.  Registering always succeeds and answers the nickname with the
    generated token.  Afterwards the token is valid and its user is in no
    room, so the room handlers answer "User is not in a game"; rooms,
    [next_game_id] and the users under other tokens are untouched. *)
Theorem register_correct nick pass draws st :
  let tok := _generate_token draws in
  let st' := (api.register nick pass draws st).2 in
  (api.register nick pass draws st).1 = Success (nick, tok)
  ∧ verify_token tok st' = true
  ∧ users st' !! tok = Some (mkUser nick pass None)
  ∧ (∀ tok', tok' ≠ tok → users st' !! tok' = users st !! tok')
  ∧ games st' = games st
  ∧ next_game_id st' = next_game_id st
  ∧ api.get_field tok st' = (Failure "User is not in a game", st')
  ∧ (∀ ids, api.pick_set tok ids st' = (Failure "User is not in a game", st'))
  ∧ api.add_cards tok st' = (Failure "User is not in a game", st').
Proof.
  cbn zeta. rewrite api_register_eq. cbn [fst snd].
  set (tok := _generate_token draws).
  set (st' := mkServerState _ _ _).
  assert (users st' !! tok = Some (mkUser nick pass None)) as Hu
    by apply lookup_insert_eq.
  assert (current_room tok st' = None) as Hc
    by by rewrite (current_room_eq _ _ _ Hu).
  destruct (api_no_room tok st' _ Hu Hc) as (Hpick & Hadd & Hfield & _).
  split_and!; try done.
  - by eapply verify_token_true.
  - intros tok' Hne. unfold st'. cbn [users]. by rewrite lookup_insert_ne.
Qed.

Lemma register_correct_witness :
  users (api.register "Bob" "password456" [] sample_server).2 !! sample_token
  ≠ users sample_server !! sample_token.
Proof.
  destruct (register_correct "Bob" "password456" [] sample_server)
    as (_ & _ & Hu & _).
  change (_generate_token []) with sample_token in Hu. rewrite Hu.
  vm_compute. discriminate.
Defined.

(** ** Creating a room *)

(** X13.  On every server state that requests can produce, creating a
    room with a valid token answers [next_game_id], an id that no room has
    yet; the new room is stored under it, [next_game_id] grows by one, and
    every room that was there and every user stay as they were. *)
Theorem create_room_fresh tok draws st u :
  reachable_server st → users st !! tok = Some u →
  let gid := next_game_id st in
  let st' := (api.create_room tok draws st).2 in
  games st !! gid = None
  ∧ (api.create_room tok draws st).1 = Success gid
  ∧ games st' !! gid = Some (new_GameRoom gid draws)
  ∧ (∀ gid' room, games st !! gid' = Some room → games st' !! gid' = Some room)
  ∧ users st' = users st
  ∧ next_game_id st' = gid + 1.
Proof.
  intros (Ha & _)%reachable_server_ok Hu. cbn zeta.
  rewrite (api_create_room_eq _ _ _ _ Hu). cbn [fst snd games users next_game_id].
  assert (games st !! next_game_id st = None) as Hfresh.
  { destruct (games st !! next_game_id st) as [room|] eqn:E; [|done].
    destruct (Ha _ _ E). lia. }
  split_and!; try done.
  - apply lookup_insert_eq.
  - intros gid' room Hg. rewrite lookup_insert_ne; [done|]. congruence.
Qed.

Lemma sample_server_reachable : reachable_server sample_server.
Proof.
  assert (sample_server
          = serve (EnterRoom sample_token 0)
              (serve (CreateRoom sample_token [])
                 (serve (Register "Alice" "password123" []) new_ServerState)))
    as -> by (vm_compute; reflexivity).
  do 3 apply server_step. apply server_new.
Qed.

Lemma create_room_fresh_witness :
  games sample_server !! next_game_id sample_server = None.
Proof.
  apply (create_room_fresh sample_token [] sample_server
           (mkUser "Alice" "password123" (Some 0))).
  - apply sample_server_reachable.
  - vm_compute. reflexivity.
Defined.

(** ** Entering a room *)

(** X14.  Entering an existing room with a valid token succeeds: the user
    now points to that room and is among its players, with the score 0 if new
    to the room and with the score held there before otherwise.  The cards
    and the status of the room, every other room (the one the user came from
    included) and every other user stay as they were. *)
Theorem enter_room_correct tok gid st u room :
  users st !! tok = Some u → games st !! gid = Some room →
  let st' := (api.enter_room tok gid st).2 in
  (api.enter_room tok gid st).1 = Success gid
  ∧ users st' !! tok = Some (mkUser (nickname u) (password u) (Some gid))
  ∧ current_room tok st' = Some (add_player tok room)
  ∧ players (add_player tok room) !! tok = Some (default 0 (players room !! tok))
  ∧ cards (add_player tok room) = cards room
  ∧ status (add_player tok room) = status room
  ∧ (∀ gid', gid' ≠ gid → games st' !! gid' = games st !! gid')
  ∧ (∀ tok', tok' ≠ tok → users st' !! tok' = users st !! tok')
  ∧ next_game_id st' = next_game_id st.
Proof.
  intros Hu Hg. cbn zeta. rewrite (api_enter_room_eq _ _ _ _ _ Hu Hg).
  cbn [fst snd]. set (st' := mkServerState _ _ _).
  assert (users st' !! tok = Some (mkUser (nickname u) (password u) (Some gid)))
    as Hu' by apply lookup_insert_eq.
  split_and!; try done.
  - rewrite (current_room_eq _ _ _ Hu'). cbn. apply lookup_insert_eq.
  - unfold add_player. destruct (players room !! tok) as [s|] eqn:E; cbn.
    + by rewrite E.
    + by rewrite lookup_insert_eq.
  - apply add_player_cards.
  - unfold add_player. by case_match.
  - intros gid' Hne. unfold st'. cbn [games]. by rewrite lookup_insert_ne.
  - intros tok' Hne. unfold st'. cbn [users]. by rewrite lookup_insert_ne.
Qed.

Lemma enter_room_correct_witness :
  (api.enter_room sample_token 0 sample_server).1 = Success 0.
Proof.
  eapply (enter_room_correct sample_token 0 sample_server); vm_compute; reflexivity.
Defined.

(** ** Unknown tokens *)

(** X15.  With a token that is not registered, every handler that takes a
    token answers "Invalid access token" and leaves the server state as it
    was; [enter_game] itself, called for such a token and an existing room,
    raises [KeyError] without changing anything. *)
Theorem invalid_token_rejected tok st :
  users st !! tok = None →
  (∀ draws, api.create_room tok draws st = (Failure "Invalid access token", st))
  ∧ (∀ gid, api.enter_room tok gid st = (Failure "Invalid access token", st))
  ∧ (∀ ids, api.pick_set tok ids st = (Failure "Invalid access token", st))
  ∧ api.add_cards tok st = (Failure "Invalid access token", st)
  ∧ api.get_field tok st = (Failure "Invalid access token", st)
  ∧ (∀ items,
       api.get_scores tok items st = (Failure "Invalid access token", st))
  ∧ (∀ gid room, games st !! gid = Some room →
       enter_game tok gid st = (Raise (KeyError tok), st)).
Proof.
  intros Hu.
  destruct (api_invalid_token tok st Hu) as (? & ? & ? & ? & ? & ?).
  split_and!; try done.
  intros gid room Hg. unfold enter_game. by rewrite Hg, Hu.
Qed.

Lemma invalid_token_rejected_witness :
  api.add_cards "nobody" sample_server
  = (Failure "Invalid access token", sample_server).
Proof.
  apply (invalid_token_rejected "nobody" sample_server).
  vm_compute. reflexivity.
Defined.

(** ** Picks and extra cards through the server *)

Lemma server_user_room st tok u gid :
  reachable_server st → users st !! tok = Some u →
  current_game_id u = Some gid →
  ∃ room s, games st !! gid = Some room ∧ game_id room = gid
            ∧ reachable room ∧ players room !! tok = Some s.
Proof.
  intros (Ha & Hb & _)%reachable_server_ok Hu Hc.
  destruct (Hb _ _ _ Hu Hc) as (room & Hg & [s Hs]).
  destruct (Ha _ _ Hg) as (_ & Hr & Hid). by exists room, s.
Qed.

(** X16.  On every server state that requests can produce, a user who
    entered a room is in a room that exists, carries the id the user points
    to and lists the user among its players.  A pick of that user is
    therefore never answered "User is not in a game" nor with a [KeyError]:
    it is answered with the result of [pick_set] on the room, or, exactly
    when the three ids are one and the same id of a card of the field, with
    the failure "list.remove(x): x not in list".  Either way the room as
    the call left it is what the server keeps. *)
Theorem api_pick_set_outcome tok ids st u gid :
  reachable_server st → users st !! tok = Some u →
  current_game_id u = Some gid →
  ∃ room s,
    games st !! gid = Some room ∧ game_id room = gid
    ∧ reachable room ∧ players room !! tok = Some s
    ∧ ((∃ i, ids = [i; i; i] ∧ i ∈ id <$> field room)
       ∧ (api.pick_set tok ids st).1 = Failure "list.remove(x): x not in list"
       ∨ (¬ ∃ i, ids = [i; i; i] ∧ i ∈ id <$> field room)
         ∧ ∃ matched score,
             (pick_set tok ids room).1 = Ret (matched, score)
             ∧ (api.pick_set tok ids st).1 = Success (matched, score))
    ∧ games (api.pick_set tok ids st).2 !! gid
      = Some (pick_set tok ids room).2.
Proof.
  intros Hst Hu Hc.
  destruct (server_user_room st tok u gid Hst Hu Hc)
    as (room & s & Hg & Hid & Hr & Hs).
  exists room, s. rewrite (api_pick_set_eq _ _ _ _ _ _ Hu Hc Hg).
  cbn [fst snd games run_op]. rewrite lookup_insert_eq.
  split_and!; try done.
  pose proof (pick_set_raise_cases tok ids room s Hr Hs) as Hiff.
  destruct (pick_set tok ids room).1 as [[matched score]|e] eqn:E.
  - right. split; [|by exists matched, score].
    intros [e He]%Hiff. congruence.
  - left. assert (∃ i, ids = [i; i; i] ∧ i ∈ id <$> field room)
      as (i & -> & Hi) by (apply Hiff; eauto).
    split; [by exists i|].
    rewrite pick_set_same_id in E;
      [|by apply reachable_NoDup_field_ids|done].
    cbn in E. by simplify_eq.
Qed.

Lemma api_pick_set_outcome_witness :
  games (api.pick_set sample_token [78; 79; 80] sample_server).2 !! 0
  = (λ room, (pick_set sample_token [78; 79; 80] room).2)
      <$> games sample_server !! 0.
Proof.
  destruct (api_pick_set_outcome sample_token [78; 79; 80] sample_server
              (mkUser "Alice" "password123" (Some 0)) 0)
    as (room & s & Hg & _ & _ & _ & _ & Hkept).
  - apply sample_server_reachable.
  - vm_compute. reflexivity.
  - reflexivity.
  - rewrite Hkept, Hg. reflexivity.
Defined.




(** ** Reading the field *)

(** X18.  [get_field] and [get_scores] never change the server state.  On
    a server state that requests can produce, a user who entered a room is
    shown the field and the status of that room and the score held there. *)
Theorem get_field_correct tok st :
  (api.get_field tok st).2 = st
  ∧ (∀ items, (api.get_scores tok items st).2 = st)
  ∧ (reachable_server st →
     ∀ u gid, users st !! tok = Some u → current_game_id u = Some gid →
       ∃ room s,
         games st !! gid = Some room ∧ players room !! tok = Some s
         ∧ (api.get_field tok st).1 = Success (field room, status room, s)).
Proof.
  destruct (api_read_only tok st) as [Hf Hs]. split_and!; [done|done|].
  intros Hst u gid Hu Hc.
  destruct (server_user_room st tok u gid Hst Hu Hc)
    as (room & s & Hg & _ & _ & Hp).
  exists room, s. rewrite (api_get_field_eq _ _ _ _ _ Hu Hc Hg).
  cbn [fst]. by rewrite Hp.
Qed.

Lemma get_field_correct_witness :
  ∃ room s,
    games sample_server !! 0 = Some room
    ∧ players room !! sample_token = Some s
    ∧ (api.get_field sample_token sample_server).1
      = Success (field room, status room, s).
Proof.
  apply (proj2 (proj2 (get_field_correct sample_token sample_server))
           sample_server_reachable (mkUser "Alice" "password123" (Some 0)) 0).
  - vm_compute. reflexivity.
  - reflexivity.
Defined.

(** ** Tokens *)

Lemma string_get_In s i :
  (i < String.length s)%nat →
  ∃ ch, String.get i s = Some ch ∧ In ch (Stdlib.Strings.String.list_ascii_of_string s).
Proof.
  revert i. induction s as [|a s IH]; intros i Hi; cbn in *; [lia|].
  destruct i as [|i].
  - exists a. auto.
  - destruct (IH i) as (ch & Hg & Hin); [lia|]. exists ch. auto.
Qed.

Lemma chars_length : String.length chars = 62%nat.
Proof. vm_compute. reflexivity. Qed.

Lemma token_chars_correct n draws :
  String.length (token_chars n draws) = n
  ∧ ∀ ch, In ch (Stdlib.Strings.String.list_ascii_of_string (token_chars n draws)) →
          In ch (Stdlib.Strings.String.list_ascii_of_string chars).
Proof.
  revert draws. induction n as [|n IH]; intros draws; cbn [token_chars].
  - split; [done|]. intros ch [].
  - destruct (string_get_In chars (hd 0%nat draws `mod` String.length chars))
      as (ch & -> & Hch).
    { apply Nat.mod_upper_bound. rewrite chars_length. lia. }
    destruct (IH (tl draws)) as [Hlen Hall].
    cbn [String.length Stdlib.Strings.String.list_ascii_of_string]. split; [by rewrite Hlen|].
    intros ch' [<-|Hin]; [done|by apply Hall].
Qed.

(** X19.  A generated token has 16 characters, each of them one of the 62
    letters and digits of [chars], whatever the random draws. *)
Theorem generate_token_correct draws :
  String.length (_generate_token draws) = 16%nat
  ∧ ∀ ch, In ch (Stdlib.Strings.String.list_ascii_of_string (_generate_token draws)) →
          In ch (Stdlib.Strings.String.list_ascii_of_string chars).
Proof. apply token_chars_correct. Qed.

Lemma generate_token_correct_witness : String.length sample_token = 16%nat.
Proof. apply (proj1 (generate_token_correct [])). Defined.

(** ** The score table *)












